(** * Primal-dual weighted set cover: [Instance], [verify] and [solve]

    A shallow embedding of [main.cpp].

    Numbers.  The program computes on C++ [double]s (binary64).  They are
    modelled by [double] below: exact rationals together with the IEEE
    special values (the two infinities and NaN), with the IEEE rules for
    the special values.  Rounding, overflow and signed zeros are not
    modelled: a finite result is the exact rational result.  The model and
    the program therefore agree where every value the program computes is
    represented exactly, and only there.  The general theorems that depend
    on the arithmetic of the loop are stated for such inputs: zero-filled
    storage and costs that are integers between 0 and 2^53
    ([integer_cost]), for which every value the loop computes is shown to
    be an integer between 0 and a cost.  The lemmas on finite non-negative
    costs ([nonneg_cost]) that lead there are lemmas about the model.  The
    other theorems are about concrete instances on which the computation
    is traced value by value, or do not depend on the values of [sum].

    Storage.  [Eigen::MatrixXd A(rows, cols)], [Eigen::VectorXd c(n)] and
    [Eigen::VectorXd sum{n}] allocate their coefficients and leave them
    uninitialised: Eigen's constructors that take sizes do not write the
    coefficients of a dynamic-size matrix or vector, unless
    [EIGEN_INITIALIZE_MATRICES_BY_ZERO] is defined, which the program does
    not do.  [c] is overwritten in full before it is read; [A] is
    overwritten only where a set contains an element, and [sum] is not
    overwritten at all.  The coefficients found in freshly allocated
    storage are therefore an explicit argument of [solve], the record
    [Heap]; [zeroed] is the heap on which every fresh coefficient reads 0.

    Control.  [assert] is modelled with assertions enabled: a failing
    assertion ends the program ([AssertFail]).  What [solve] writes to
    [std::cerr] is part of its outcome.  Counters and sizes are natural
    numbers (instances with more than [INT_MAX] sets or elements are out of
    reach of the [int] loop counters and are not modelled); the element
    indices stored in a set are C++ [int]s, modelled by [Z]. *)

From Stdlib Require Import QArith Qabs Lqa Lia Sorted.
From stdpp Require Import base list sets strings.

Local Open Scope Q_scope.
#[local] Set Warnings "-clear-no-such-hyp".

(** ** An idealised [double] *)

Module IEEE.

Inductive double : Type :=
| Fin (q : Q)
| PInf
| NInf
| NaN.

Definition Qltb (x y : Q) : bool := negb (Qle_bool y x).

(** The infinity (or NaN) with the sign given by a comparison with zero. *)
Definition signed_inf (c : comparison) : double :=
  match c with Gt => PInf | Lt => NInf | Eq => NaN end.

Definition dopp (a : double) : double :=
  match a with
  | Fin x => Fin (- x)
  | PInf => NInf
  | NInf => PInf
  | NaN => NaN
  end.

Definition dadd (a b : double) : double :=
  match a, b with
  | NaN, _ | _, NaN => NaN
  | Fin x, Fin y => Fin (x + y)
  | PInf, NInf | NInf, PInf => NaN
  | PInf, _ | _, PInf => PInf
  | NInf, _ | _, NInf => NInf
  end.

Definition dsub (a b : double) : double := dadd a (dopp b).

Definition dmul (a b : double) : double :=
  match a, b with
  | NaN, _ | _, NaN => NaN
  | Fin x, Fin y => Fin (x * y)
  | Fin x, PInf | PInf, Fin x => signed_inf (x ?= 0)
  | Fin x, NInf | NInf, Fin x => signed_inf (0 ?= x)
  | PInf, PInf | NInf, NInf => PInf
  | PInf, NInf | NInf, PInf => NInf
  end.

(** A zero divisor is taken to be [+0]. *)
Definition ddiv (a b : double) : double :=
  match a, b with
  | NaN, _ | _, NaN => NaN
  | Fin x, Fin y =>
      if Qeq_bool y 0 then signed_inf (x ?= 0) else Fin (x / y)
  | Fin _, _ => Fin 0
  | PInf, Fin y => if Qltb y 0 then NInf else PInf
  | NInf, Fin y => if Qltb y 0 then PInf else NInf
  | _, _ => NaN
  end.

(** [std::fabs] *)
Definition dabs (a : double) : double :=
  match a with
  | Fin x => Fin (Qabs x)
  | PInf | NInf => PInf
  | NaN => NaN
  end.

(** [a < b]; false as soon as one side is NaN. *)
Definition dlt (a b : double) : bool :=
  match a, b with
  | NaN, _ | _, NaN => false
  | Fin x, Fin y => Qltb x y
  | _, NInf => false
  | NInf, _ => true
  | PInf, _ => false
  | Fin _, PInf => true
  end.

(** [a == b]; false as soon as one side is NaN. *)
Definition deq (a b : double) : bool :=
  match a, b with
  | Fin x, Fin y => Qeq_bool x y
  | PInf, PInf | NInf, NInf => true
  | _, _ => false
  end.

(** [std::min(a, b)], that is [(b < a) ? b : a]. *)
Definition dmin (a b : double) : double := if dlt b a then b else a.

(** [std::numeric_limits<double>::infinity()] *)
Definition infinity : double := PInf.

End IEEE.

Import IEEE.

(** ** The program *)

(** [#define EPSILON 0.0001] *)
Definition EPSILON : double := Fin (1 # 10000).

(** [struct Instance] *)
Record Instance : Type := {
  nr_elements : nat;
  sets : list (list Z);
  costs : list double
}.

(** [Instance(size_t nr_elements)] *)
Definition construct (n : nat) : Instance :=
  {| nr_elements := n; sets := []; costs := [] |}.

(** [void add_set(double cost, std::vector<int> covered_elements)] *)
Definition add_set (cost : double) (covered_elements : list Z)
    (inst : Instance) : Instance :=
  {| nr_elements := nr_elements inst;
     sets := sets inst ++ [covered_elements];
     costs := costs inst ++ [cost] |}.

(** The two assertions on one element: [e >= 0] and [e < nr_elements]. *)
Definition in_range (n : nat) (e : Z) : bool :=
  ((0 <=? e) && (e <? Z.of_nat n))%Z.

(** [void verify()]: [true] when no assertion fails. *)
Definition verify (inst : Instance) : bool :=
  (length (costs inst) =? length (sets inst))%nat
  && forallb (forallb (in_range (nr_elements inst))) (sets inst).

(** [Eigen::VectorXd] and [Eigen::MatrixXd], the latter as its rows. *)
Abbreviation vec := (list double).
Abbreviation matrix := (list (list double)).

(** What freshly allocated coefficients hold before they are written. *)
Record Heap : Type := {
  fresh_matrix : nat -> nat -> double;
  fresh_vector : nat -> double
}.

(** Storage that reads 0 everywhere. *)
Definition zeroed : Heap :=
  {| fresh_matrix := fun _ _ => Fin 0; fresh_vector := fun _ => Fin 0 |}.

(** [Eigen::MatrixXd A(rows, cols)], a list of rows *)
Definition alloc_matrix (h : Heap) (rows cols : nat) : matrix :=
  map (fun r => map (fresh_matrix h r) (seq 0 cols)) (seq 0 rows).

(** [Eigen::VectorXd sum{n}] *)
Definition alloc_vector (h : Heap) (n : nat) : vec :=
  map (fresh_vector h) (seq 0 n).

(** [A(r, c) = v]; after [verify] the row index is always in range. *)
Definition mset (A : matrix) (r c : nat) (v : double) : matrix :=
  alter (fun row => <[c := v]> row) r A.

(** The inner loop [for (int r : instance.sets[c]) A(r, c) = 1]. *)
Definition fill_column (c : nat) (s : list Z) (A : matrix) : matrix :=
  fold_left (fun A r => mset A (Z.to_nat r) c (Fin 1)) s A.

(** The outer loop over the columns [c], [c+1], ... *)
Fixpoint fill_from (c : nat) (ss : list (list Z)) (A : matrix) : matrix :=
  match ss with
  | [] => A
  | s :: ss' => fill_from (S c) ss' (fill_column c s A)
  end.

(** Lines 46 to 51: the coverage matrix. *)
Definition coverage_matrix (h : Heap) (inst : Instance) : matrix :=
  fill_from 0 (sets inst)
    (alloc_matrix h (nr_elements inst) (length (sets inst))).

(** Lines 54 and 55: [c[i] = instance.costs[i]] for [i < nr_sets]. *)
Definition cost_vector (inst : Instance) : vec :=
  take (length (sets inst)) (costs inst).

(** Line 57: the vector [sum], as allocated. *)
Definition initial_sum (h : Heap) (inst : Instance) : vec :=
  alloc_vector h (length (sets inst)).

(** Lines 63 to 67, from index [i] on: [acc] is [max_possible_incr]. *)
Fixpoint max_possible_incr (acc : double) (covered_by_sets gap : vec)
    : double :=
  match covered_by_sets, gap with
  | a :: row, g :: gap' =>
      max_possible_incr
        (if dlt a EPSILON then acc else dmin acc (ddiv g a)) row gap'
  | _, _ => acc
  end.

(** One iteration of the loop over the elements (lines 59 to 76);
    [None] is the early return of line 72. *)
Definition grow_element (c sum covered_by_sets : vec) : option vec :=
  let gap := zip_with dsub c sum in
  let incr := max_possible_incr infinity covered_by_sets gap in
  if deq incr infinity then None
  else Some (zip_with (fun s a => dadd s (dmul incr a)) sum covered_by_sets).

(** The loop of line 58 over the rows that remain. *)
Fixpoint dual_growth (c : vec) (rows : matrix) (sum : vec) : option vec :=
  match rows with
  | [] => Some sum
  | row :: rows' =>
      match grow_element c sum row with
      | None => None
      | Some sum' => dual_growth c rows' sum'
      end
  end.

(** The test of line 82. *)
Definition tight (cs ss : double) : bool := dlt (dabs (dsub cs ss)) EPSILON.

(** Lines 80 to 83, from set index [s] on. *)
Fixpoint set_cover_from (s : nat) (c sum : vec) : list nat :=
  match c, sum with
  | cs :: c', ss :: sum' =>
      if tight cs ss then s :: set_cover_from (S s) c' sum'
      else set_cover_from (S s) c' sum'
  | _, _ => []
  end.

(** How a call of [solve] ends: on a failed assertion, or by returning
    [set_cover] after having written the lines [cerr] to [std::cerr]. *)
Inductive outcome : Type :=
| AssertFail
| Return (cerr : list string) (set_cover : list nat).

(** [std::vector<int> solve(Instance& instance)] *)
Definition solve (h : Heap) (inst : Instance) : outcome :=
  if verify inst then
    let A := coverage_matrix h inst in
    let c := cost_vector inst in
    match dual_growth c A (initial_sum h inst) with
    | None => Return ["Infeasible!"%string] []
    | Some sum => Return [] (set_cover_from 0 c sum)
    end
  else AssertFail.

(** The instance built by [main]. *)
Definition main_instance : Instance :=
  add_set (Fin 2) [4; 0]%Z
    (add_set (Fin 3) [3; 4]%Z
       (add_set (Fin 2) [1; 2; 3]%Z
          (add_set (Fin 50) [0; 1]%Z (construct 5)))).

(** ** The slack vector along the loop *)

(** The values of [sum] at the start of each iteration that is entered,
    followed by its value when the loop is left normally. *)
Fixpoint sum_trace (c : vec) (rows : matrix) (sum : vec) : list vec :=
  sum ::
  match rows with
  | [] => []
  | row :: rows' =>
      match grow_element c sum row with
      | None => []
      | Some sum' => sum_trace c rows' sum'
      end
  end.

(** The same for a call of [solve] that passes [verify]. *)
Definition solve_trace (h : Heap) (inst : Instance) : list vec :=
  sum_trace (cost_vector inst) (coverage_matrix h inst)
    (initial_sum h inst).

(** ** Storage that is not zero-filled *)

(** Zero-filled storage, except that coefficient [i] of a fresh vector
    holds [v]. *)
Definition stale_vector (i : nat) (v : double) : Heap :=
  {| fresh_matrix := fun _ _ => Fin 0;
     fresh_vector := fun j => if (j =? i)%nat then v else Fin 0 |}.

(** Storage in which every fresh matrix coefficient holds [v]. *)
Definition stale_matrix (v : double) : Heap :=
  {| fresh_matrix := fun _ _ => v; fresh_vector := fun _ => Fin 0 |}.

(** ** The vocabulary of the specification *)

(** Set [s] contains element [e]. *)
Definition covers (s : list Z) (e : nat) : bool :=
  bool_decide (Z.of_nat e ∈ s).

(** Every element of the universe is contained in at least one set. *)
Definition feasible (inst : Instance) : Prop :=
  ∀ e, (e < nr_elements inst)%nat → ∃ s, s ∈ sets inst ∧ covers s e = true.

(** No set contains element [e]. *)
Definition uncovered (inst : Instance) (e : nat) : Prop :=
  Forall (fun s => covers s e = false) (sets inst).

(** The first element of the universe that no set contains, if any. *)
Definition first_uncovered (inst : Instance) : option nat :=
  snd <$> list_find (uncovered inst) (seq 0 (nr_elements inst)).

(** [sel] lists set indices of the instance, and the union of the sets at
    these indices is the universe [[0, nr_elements)]. *)
Definition is_cover (inst : Instance) (sel : list nat) : Prop :=
  (∀ i, i ∈ sel → (i < length (sets inst))%nat) ∧
  ∀ r : Z, (0 <= r < Z.of_nat (nr_elements inst))%Z ↔
           ∃ i s, i ∈ sel ∧ sets inst !! i = Some s ∧ r ∈ s.

(** Number of sets that contain [e]. *)
Definition frequency (inst : Instance) (e : nat) : nat :=
  length (filter (fun s => covers s e = true) (sets inst)).

(** The largest number of sets that contain one element. *)
Definition max_frequency (inst : Instance) : nat :=
  max_list (frequency inst <$> seq 0 (nr_elements inst)).

(** A count as a double. *)
Definition dnat (n : nat) : double := Fin (inject_Z (Z.of_nat n)).

(** Costs that are finite and not negative. *)
Definition nonneg_cost (d : double) : Prop :=
  match d with Fin q => 0 <= q | _ => False end.

(** The rational value of a finite double. *)
Definition qval (d : double) : Q :=
  match d with Fin q => q | _ => 0 end.

(** Total cost of the sets at the indices [sel]. *)
Definition total_cost (inst : Instance) (sel : list nat) : double :=
  foldr dadd (Fin 0) ((fun i => default NaN (costs inst !! i)) <$> sel).

(** [a <= b] on doubles; false as soon as one side is NaN. *)
Definition dle (a b : double) : bool := dlt a b || deq a b.

(** A cover of least total cost. *)
Definition min_cost_cover (inst : Instance) (opt : list nat) : Prop :=
  is_cover inst opt ∧
  ∀ o, is_cover inst o → dle (total_cost inst opt) (total_cost inst o) = true.

(** Componentwise [<=], and a trace along which no component decreases. *)
Definition vec_le (u v : vec) : Prop :=
  Forall2 (fun a b => dle a b = true) u v.

Definition nondecreasing (tr : list vec) : Prop :=
  ∀ k u v, tr !! k = Some u → tr !! S k = Some v → vec_le u v.

(** Two families of sets that agree, position by position, on which
    elements they contain. *)
Definition same_members (ss' ss : list (list Z)) : Prop :=
  Forall2 (fun s' s => ∀ r : Z, r ∈ s' ↔ r ∈ s) ss' ss.

(** The instance with the duplicates removed from its set number [k]. *)
Definition dedup_set (k : nat) (inst : Instance) : Instance :=
  {| nr_elements := nr_elements inst;
     sets := alter remove_dups k (sets inst);
     costs := costs inst |}.

(** Each set of the instance with its duplicate entries removed. *)
Definition dedup_sets (inst : Instance) : Instance :=
  {| nr_elements := nr_elements inst;
     sets := remove_dups <$> sets inst;
     costs := costs inst |}.

(** The instance after the calls [add_set(c, s)] for [(c, s)] in [l]. *)
Definition build (n : nat) (l : list (double * list Z)) : Instance :=
  foldl (fun inst p => add_set p.1 p.2 inst) (construct n) l.

(** A rational that is an integer; a double that is an integer. *)
Definition is_int (q : Q) : Prop := ∃ z : Z, q == inject_Z z.

Definition integral (d : double) : Prop :=
  match d with Fin q => is_int q | _ => False end.

(** A cost that is an integer between 0 and 2^53.  Every integer
    of that range is a binary64 number, and the sum and the difference
    of two of them, when they stay in the range, are computed exactly. *)
Definition integer_cost (d : double) : Prop :=
  ∃ z : Z, (0 <= z <= 2 ^ 53)%Z ∧ d = Fin (inject_Z z).

Definition integer_costb (d : double) : bool :=
  match d with
  | Fin q =>
      (Qden q =? 1)%positive && (0 <=? Qnum q)%Z && (Qnum q <=? 2 ^ 53)%Z
  | _ => false
  end.

(** A matrix entry that is 0 or 1. *)
Definition bit01 (a : double) : Prop := a = Fin 0 ∨ a = Fin 1.

(** ** Decision procedures for the vocabulary *)

(** [feasible], [nonneg_cost] and [is_cover] as boolean tests. *)
Definition feasibleb (inst : Instance) : bool :=
  forallb (fun e => existsb (fun s => covers s e) (sets inst))
    (seq 0 (nr_elements inst)).

Definition nonneg_costb (d : double) : bool :=
  match d with Fin q => Qle_bool 0 q | _ => false end.

Definition is_coverb (inst : Instance) (sel : list nat) : bool :=
  forallb (fun i => i <? length (sets inst))%nat sel
  && forallb (fun e =>
       existsb (fun i => covers (default [] (sets inst !! i)) e) sel)
       (seq 0 (nr_elements inst)).

(** ** Instances that separate the program from its specification *)

(** Two elements; set 0 is [{0, 1}] and set 1 is [{0}], both at cost 1;
    set 2 is [{1}] at cost 0.00005. *)
Definition cheap_set_instance : Instance :=
  add_set (Fin (5 # 100000)) [1]%Z
    (add_set (Fin 1) [0]%Z (add_set (Fin 1) [0; 1]%Z (construct 2))).

(** Two elements and one set, which leaves element 0, respectively
    element 1, out. *)
Definition uncovered_0_instance : Instance :=
  add_set (Fin 1) [1]%Z (construct 2).

Definition uncovered_1_instance : Instance :=
  add_set (Fin 1) [0]%Z (construct 2).

(** ** Proof devices *)

(** Entry [(r, c)] of a matrix, if there is one. *)
Definition mget (A : matrix) (r c : nat) : option double :=
  A !! r ≫= fun row => row !! c.

(** Whether the filling loop writes entry [(e, i)], columns numbered from
    [c]. *)
Definition written (c : nat) (ss : list (list Z)) (e i : nat) : Prop :=
  ∃ s, (c <= i)%nat ∧ ss !! (i - c)%nat = Some s ∧ e ∈ Z.to_nat <$> s.

(** The lengths of the rows. *)
Definition shape (A : matrix) : list nat := length <$> A.

(** Row [e] of the coverage matrix: 1 where the set contains [e], and what
    the fresh storage held elsewhere. *)
Definition coverage_row (h : Heap) (ss : list (list Z)) (e : nat) : vec :=
  imap (fun i s => if covers s e then Fin 1 else fresh_matrix h e i) ss.

(** The state of the loop on zero-filled storage with finite costs, as
    one record per set: the set, its cost and its accumulated slack, as
    rationals. *)
Record slot : Type := { slot_set : list Z; slot_cost : Q; slot_sum : Q }.

(** The vectors [c] and [sum] and the row of element [e] in such a
    state. *)
Definition c_of (st : list slot) : vec :=
  (fun t => Fin (slot_cost t)) <$> st.

Definition sum_of (st : list slot) : vec :=
  (fun t => Fin (slot_sum t)) <$> st.

Definition row_of (e : nat) (st : list slot) : vec :=
  (fun t => if covers (slot_set t) e then Fin 1 else Fin 0) <$> st.

(** A truth value as 0 or 1. *)
Definition bit (b : bool) : Q := if b then 1 else 0.

(** The slack of every set that contains [e] grows by [y]. *)
Definition grow_slot (y : Q) (e : nat) (t : slot) : slot :=
  {| slot_set := slot_set t; slot_cost := slot_cost t;
     slot_sum := slot_sum t + y * bit (covers (slot_set t) e) |}.

(** The states after raising the dual variables of [es] by [ys]. *)
Fixpoint run (es : list nat) (ys : list Q) (st : list slot) : list slot :=
  match es, ys with
  | e :: es', y :: ys' => run es' ys' (grow_slot y e <$> st)
  | _, _ => st
  end.

(** The running minimum is infinite or a non-negative rational. *)
Definition acc_ok (acc : double) : Prop :=
  match acc with Fin a => 0 <= a | PInf => True | _ => False end.

(** The state in which [solve] enters the loop on zero-filled storage. *)
Definition slots_of (inst : Instance) : list slot :=
  zip_with (fun s d => {| slot_set := s; slot_cost := qval d; slot_sum := 0 |})
    (sets inst) (costs inst).

(** The sum of a list of rationals. *)
Definition Qsum (l : list Q) : Q := foldr Qplus 0 l.

(** The dual variables [ys] of the elements [es], summed over the elements
    that set [s] contains. *)
Definition load (es : list nat) (ys : list Q) (s : list Z) : Q :=
  Qsum (zip_with (fun e y => y * bit (covers s e)) es ys).

(** Number of indices of [l], as a rational, at which [p] holds. *)
Definition count (p : nat → bool) (l : list nat) : Q :=
  Qsum ((fun i => bit (p i)) <$> l).

(** The total cost of valid indices, when the costs are finite. *)
Definition qcost (inst : Instance) (sel : list nat) : Q :=
  Qsum ((fun i => qval (default NaN (costs inst !! i))) <$> sel).

(** ** Further instruments and proof devices *)

(** Two heaps that hold the same in every coefficient [solve] reads
    before writing it: the matrix entries [(e, i)] for which set [i] does
    not contain [e], and the first [nr_sets] vector coefficients. *)
Definition heap_agree (inst : Instance) (h h' : Heap) : Prop :=
  (∀ e i s, (e < nr_elements inst)%nat → sets inst !! i = Some s →
            covers s e = false → fresh_matrix h e i = fresh_matrix h' e i) ∧
  (∀ i, (i < length (sets inst))%nat → fresh_vector h i = fresh_vector h' i).

(** The values by which the dual variables are raised (line 76), one for
    each iteration that is completed. *)
Fixpoint incr_trace (c : vec) (rows : matrix) (sum : vec) : list double :=
  match rows with
  | [] => []
  | row :: rows' =>
      match grow_element c sum row with
      | None => []
      | Some sum' =>
          max_possible_incr infinity row (zip_with dsub c sum)
            :: incr_trace c rows' sum'
      end
  end.

(** The same for a call of [solve] that passes [verify]. *)
Definition solve_increments (h : Heap) (inst : Instance) : list double :=
  incr_trace (cost_vector inst) (coverage_matrix h inst)
    (initial_sum h inst).

(** The sum of a list of doubles. *)
Definition dsum (l : list double) : double := foldr dadd (Fin 0) l.

(** Two elements; set 0 is [{0, 1}] at cost 1 and set 1 is [{1}] at
    cost 0. *)
Definition free_set_instance : Instance :=
  add_set (Fin 0) [1]%Z (add_set (Fin 1) [0; 1]%Z (construct 2)).


(** One element, contained in one set of infinite cost. *)
Definition infinite_cost_instance : Instance :=
  add_set PInf [0]%Z (construct 1).

(** The instance of [main] with the first two elements of each set
    exchanged. *)
Definition swapped_main_instance : Instance :=
  add_set (Fin 2) [0; 4]%Z
    (add_set (Fin 3) [4; 3]%Z
       (add_set (Fin 2) [2; 1; 3]%Z
          (add_set (Fin 50) [1; 0]%Z (construct 5)))).

(** Storage that differs from zero-filled storage only where [solve]
    does not read it on the instance of [main]: in the matrix entry
    [(0, 0)], which is overwritten, and beyond the four coefficients of
    the vector. *)
Definition stale_unread : Heap :=
  {| fresh_matrix := fun e i =>
       if (e =? 0)%nat && (i =? 0)%nat then Fin 7 else Fin 0;
     fresh_vector := fun i => if (i <? 4)%nat then Fin 0 else Fin 7 |}.

(** * Properties *)

(** ** The coverage matrix in closed form *)

Lemma mget_mset (A : matrix) r c v r' c' :
  mget (mset A r c v) r' c' =
  if decide (r = r' ∧ c = c') then (fun _ => v) <$> mget A r' c'
  else mget A r' c'.
Proof.
  unfold mget, mset. rewrite list_lookup_alter.
  destruct (decide (r = r')) as [->|Hr].
  - destruct (A !! r') as [row|] eqn:Hrow; simpl.
    + destruct (decide (c = c')) as [->|Hc].
      * rewrite decide_True by done.
        destruct (decide (c' < length row)%nat) as [Hlt|Hge].
        -- rewrite list_lookup_insert_eq by done.
           destruct (lookup_lt_is_Some_2 row c' Hlt) as [x ->]. done.
        -- rewrite list_insert_ge by lia.
           rewrite (lookup_ge_None_2 row c') by lia. done.
      * rewrite decide_False by (intros [? ?]; done).
        by rewrite list_lookup_insert_ne.
    + by destruct (decide _).
  - rewrite decide_False by (intros [? ?]; done). done.
Qed.

Lemma mget_fill_column c s (A : matrix) e i :
  mget (fill_column c s A) e i =
  if decide (i = c ∧ e ∈ Z.to_nat <$> s)
  then (fun _ => Fin 1) <$> mget A e i else mget A e i.
Proof.
  unfold fill_column. revert A.
  induction s as [|r s IH]; intros A; cbn [fold_left].
  - rewrite decide_False; [done|]. intros [_ H]. by apply elem_of_nil in H.
  - rewrite IH, mget_mset, fmap_cons.
    repeat case_decide; try done; try (exfalso; set_solver).
    all: by destruct (mget A e i).
Qed.

Lemma mget_fill_from ss : ∀ c (A : matrix) e i x,
  mget A e i = Some x →
  (written c ss e i → mget (fill_from c ss A) e i = Some (Fin 1)) ∧
  (¬ written c ss e i → mget (fill_from c ss A) e i = Some x).
Proof.
  induction ss as [|s ss IH]; intros c A e i x Hx; cbn [fill_from].
  - split; [|done]. intros (s & _ & Hs & _). by rewrite lookup_nil in Hs.
  - pose proof (mget_fill_column c s A e i) as Hcol. rewrite Hx in Hcol.
    case_decide as Hd.
    + destruct Hd as [-> Hin]. simpl in Hcol.
      destruct (IH (S c) _ _ _ _ Hcol) as [IH1 IH2]. split.
      * intros _. apply IH2. intros (s' & Hle & _). lia.
      * intros Hw. exfalso. apply Hw. exists s. rewrite Nat.sub_diag. done.
    + destruct (IH (S c) _ _ _ _ Hcol) as [IH1 IH2]. split.
      * intros (s' & Hle & Hs' & Hin). apply IH1.
        destruct (decide (i = c)) as [->|Hne].
        -- rewrite Nat.sub_diag in Hs'. naive_solver.
        -- exists s'. split; [lia|]. split; [|done].
           replace (i - c)%nat with (S (i - S c)) in Hs' by lia. done.
      * intros Hw. apply IH2. intros (s' & Hle & Hs' & Hin). apply Hw.
        exists s'. split; [lia|]. split; [|done].
        replace (i - c)%nat with (S (i - S c)) by lia. done.
Qed.

Lemma shape_mset (A : matrix) r c v : shape (mset A r c v) = shape A.
Proof.
  unfold shape, mset. apply list_eq. intros j.
  rewrite !list_lookup_fmap, list_lookup_alter.
  case_decide; [subst|done].
  destruct (A !! j); simpl; [|done]. by rewrite length_insert.
Qed.

Lemma shape_fill_column c s (A : matrix) : shape (fill_column c s A) = shape A.
Proof.
  unfold fill_column. revert A.
  induction s as [|r s IH]; intros A; cbn [fold_left]; [done|].
  by rewrite IH, shape_mset.
Qed.

Lemma shape_fill_from ss : ∀ c (A : matrix), shape (fill_from c ss A) = shape A.
Proof.
  induction ss as [|s ss IH]; intros c A; cbn [fill_from]; [done|].
  by rewrite IH, shape_fill_column.
Qed.

Lemma matrix_ext (A B : matrix) :
  shape A = shape B → (∀ r c, mget A r c = mget B r c) → A = B.
Proof.
  intros Hs Hg. apply list_eq. intros r.
  assert (length <$> A !! r = length <$> B !! r) as Hr
    by (rewrite <- !list_lookup_fmap; unfold shape in Hs; by rewrite Hs).
  destruct (A !! r) as [ra|] eqn:Ha, (B !! r) as [rb|] eqn:Hb; try done.
  f_equal. apply list_eq. intros c. specialize (Hg r c).
  unfold mget in Hg. by rewrite Ha, Hb in Hg.
Qed.

Lemma verify_spec inst :
  verify inst = true ↔
  length (costs inst) = length (sets inst) ∧
  ∀ s r, s ∈ sets inst → r ∈ s → (0 <= r < Z.of_nat (nr_elements inst))%Z.
Proof.
  unfold verify. rewrite andb_true_iff, Nat.eqb_eq, forallb_forall.
  apply and_iff_compat_l. split.
  - intros H s r Hs Hr. apply list_elem_of_In in Hs, Hr.
    specialize (H s Hs). rewrite forallb_forall in H. specialize (H r Hr).
    unfold in_range in H. lia.
  - intros H s Hs. apply forallb_forall. intros r Hr.
    apply list_elem_of_In in Hs, Hr. specialize (H s r Hs Hr).
    unfold in_range. lia.
Qed.

Lemma written_covers inst e i :
  verify inst = true →
  written 0 (sets inst) e i ↔
  ∃ s, sets inst !! i = Some s ∧ covers s e = true.
Proof.
  intros [_ Hr]%verify_spec. unfold written, covers.
  rewrite Nat.sub_0_r. split.
  - intros (s & _ & Hs & Hin). exists s. split; [done|].
    apply bool_decide_eq_true. apply list_elem_of_fmap in Hin as (r & -> & Hin).
    assert (s ∈ sets inst) as Hs' by (eapply list_elem_of_lookup_2; eauto).
    specialize (Hr s r Hs' Hin). by rewrite Z2Nat.id by lia.
  - intros (s & Hs & Hin). exists s. split; [lia|]. split; [done|].
    apply bool_decide_eq_true in Hin. apply list_elem_of_fmap.
    exists (Z.of_nat e). by rewrite Nat2Z.id.
Qed.

Lemma coverage_matrix_closed h inst :
  verify inst = true →
  coverage_matrix h inst =
  coverage_row h (sets inst) <$> seq 0 (nr_elements inst).
Proof.
  intros Hv. unfold coverage_matrix. apply matrix_ext.
  - rewrite shape_fill_from. unfold shape, alloc_matrix, coverage_row.
    rewrite <- !list_fmap_compose. apply list_fmap_ext. intros _ e _. simpl.
    by rewrite length_map, length_seq, length_imap.
  - intros e i.
    set (A0 := alloc_matrix h (nr_elements inst) (length (sets inst))).
    assert (mget A0 e i =
            if decide (e < nr_elements inst ∧ i < length (sets inst))%nat
            then Some (fresh_matrix h e i) else None) as HA0.
    { unfold mget, A0, alloc_matrix.
      case_decide as Hd.
      - destruct Hd as [He Hi].
        rewrite list_lookup_fmap, lookup_seq_lt by done. simpl.
        by rewrite list_lookup_fmap, lookup_seq_lt.
      - rewrite list_lookup_fmap.
        destruct (decide (e < nr_elements inst)%nat) as [He|He].
        + rewrite lookup_seq_lt by done. simpl.
          rewrite list_lookup_fmap, lookup_seq_ge; [done|lia].
        + rewrite lookup_seq_ge; [done|lia]. }
    unfold mget at 2. rewrite list_lookup_fmap.
    case_decide as Hd.
    + destruct Hd as [He Hi]. rewrite lookup_seq_lt by done. simpl.
      unfold coverage_row. rewrite list_lookup_imap.
      destruct (lookup_lt_is_Some_2 (sets inst) i Hi) as [s Hs].
      rewrite Hs. simpl.
      destruct (mget_fill_from (sets inst) 0 A0 e i _ HA0) as [H1 H2].
      destruct (covers s e) eqn:Hc.
      * apply H1, written_covers; eauto.
      * apply H2. rewrite written_covers by done. intros (s' & Hs' & Hc').
        congruence.
    + assert (mget (fill_from 0 (sets inst) A0) e i = None) as ->.
      { unfold mget.
        destruct (fill_from 0 (sets inst) A0 !! e) as [row|] eqn:Hrow;
          [simpl|done].
        assert (shape (fill_from 0 (sets inst) A0) !! e = Some (length row))
          as Hsh by (unfold shape; by rewrite list_lookup_fmap, Hrow).
        rewrite shape_fill_from in Hsh. unfold shape, A0, alloc_matrix in Hsh.
        rewrite <- list_fmap_compose, list_lookup_fmap in Hsh.
        destruct (seq 0 (nr_elements inst) !! e) as [e'|] eqn:Hseq;
          [simpl in Hsh|done].
        apply lookup_seq in Hseq as [-> He].
        rewrite length_map, length_seq in Hsh.
        apply lookup_ge_None_2. injection Hsh as <-. lia. }
      destruct (decide (e < nr_elements inst)%nat) as [He|He].
      * rewrite lookup_seq_lt by done. simpl. unfold coverage_row.
        rewrite list_lookup_imap, lookup_ge_None_2; [done|lia].
      * rewrite lookup_seq_ge; [done|lia].
Qed.

(** ** Dual growth on zero-filled storage with finite costs

    The lemmas of this part, and those that follow on the loop as a
    whole, are about the model, in which the arithmetic is exact.  They
    are what the program computes when the costs are integers between 0
    and 2^53; see the part on integer costs below. *)

Lemma Qltb_lt x y : Qltb x y = true ↔ x < y.
Proof.
  unfold Qltb. rewrite negb_true_iff. split.
  - intros H. apply Qnot_le_lt. intros Hle.
    apply Qle_bool_iff in Hle. congruence.
  - intros H. destruct (Qle_bool y x) eqn:Hb; [|done].
    apply Qle_bool_iff in Hb. lra.
Qed.

Lemma Qltb_ge x y : Qltb x y = false ↔ y <= x.
Proof.
  unfold Qltb. rewrite negb_false_iff. apply Qle_bool_iff.
Qed.

Lemma max_possible_incr_slots e st : ∀ acc,
  acc_ok acc →
  Forall (fun t => slot_sum t <= slot_cost t) st →
  match max_possible_incr acc (row_of e st)
          (zip_with dsub (c_of st) (sum_of st)) with
  | Fin y =>
      0 <= y ∧ (∀ a, acc = Fin a → y <= a) ∧
      Forall (fun t => covers (slot_set t) e = true →
                       y <= slot_cost t - slot_sum t) st ∧
      ((∃ a, acc = Fin a ∧ y == a) ∨
       Exists (fun t => covers (slot_set t) e = true ∧
                        y == slot_cost t - slot_sum t) st)
  | PInf => acc = PInf ∧ Forall (fun t => covers (slot_set t) e = false) st
  | _ => False
  end.
Proof.
  induction st as [|t st IH]; intros acc Hacc Hle.
  - simpl. destruct acc; try done. repeat split; [done|..].
    + intros a [= ->]. lra.
    + constructor.
    + left. eexists. split; [done|]. lra.
  - apply Forall_cons in Hle as [Ht Hle].
    assert (row_of e (t :: st) =
            (if covers (slot_set t) e then Fin 1 else Fin 0) :: row_of e st)
      as -> by done.
    assert (zip_with dsub (c_of (t :: st)) (sum_of (t :: st)) =
            Fin (slot_cost t - slot_sum t)
              :: zip_with dsub (c_of st) (sum_of st)) as -> by done.
    cbn [max_possible_incr].
    destruct (covers (slot_set t) e) eqn:Hc.
    + change (dlt (Fin 1) EPSILON) with false. cbn match.
      set (g := slot_cost t - slot_sum t).
      change (ddiv (Fin g) (Fin 1)) with (Fin (g / 1)).
      assert (Hg1 : g / 1 == g) by (field; done).
      assert (Hg : 0 <= g) by (unfold g; lra).
      assert (Hgd : g == slot_cost t - slot_sum t) by reflexivity.
      clearbody g.
      destruct acc as [a| | |]; try done; unfold dmin.
      * cbn [dlt]. destruct (Qltb (g / 1) a) eqn:Hlt.
        -- apply Qltb_lt in Hlt.
           assert (acc_ok (Fin (g / 1))) as Hok by (simpl; lra).
           specialize (IH _ Hok Hle).
           destruct (max_possible_incr _ _ _) as [y| | |]; try done.
           ++ destruct IH as (Hy & Hya & Hall & Hex).
              specialize (Hya _ eq_refl). repeat split; [done|..].
              ** intros a' [= <-]. lra.
              ** constructor; [intros _; lra|done].
              ** right. destruct Hex as [(a' & [= <-] & Heq)|Hex].
                 --- left. split; [done|lra].
                 --- by right.
           ++ by destruct IH.
        -- apply Qltb_ge in Hlt. specialize (IH _ Hacc Hle).
           destruct (max_possible_incr _ _ _) as [y| | |]; try done.
           ++ destruct IH as (Hy & Hya & Hall & Hex).
              specialize (Hya _ eq_refl). repeat split; [done|..].
              ** intros a' [= <-]. lra.
              ** constructor; [intros _; lra|done].
              ** destruct Hex as [Hex|Hex]; [by left|right; by right].
           ++ by destruct IH.
      * cbn [dlt].
        assert (acc_ok (Fin (g / 1))) as Hok by (simpl; lra).
        specialize (IH _ Hok Hle).
        destruct (max_possible_incr _ _ _) as [y| | |]; try done.
        -- destruct IH as (Hy & Hya & Hall & Hex).
           specialize (Hya _ eq_refl). repeat split; [done|done|..].
           ++ constructor; [intros _; lra|done].
           ++ right. destruct Hex as [(a' & [= <-] & Heq)|Hex].
              ** left. split; [done|lra].
              ** by right.
        -- by destruct IH.
    + change (dlt (Fin 0) EPSILON) with true. cbn match.
      specialize (IH _ Hacc Hle).
      destruct (max_possible_incr _ _ _) as [y| | |]; try done.
      * destruct IH as (Hy & Hya & Hall & Hex). repeat split; [done|done|..].
        -- constructor; [congruence|done].
        -- destruct Hex as [Hex|Hex]; [by left|right; by right].
      * destruct IH as [-> Hall]. split; [done|]. by constructor.
Qed.

Lemma c_of_grow y e st : c_of (grow_slot y e <$> st) = c_of st.
Proof. unfold c_of. rewrite <- list_fmap_compose. by apply list_fmap_ext. Qed.

Lemma row_of_grow y e e' st : row_of e' (grow_slot y e <$> st) = row_of e' st.
Proof. unfold row_of. rewrite <- list_fmap_compose. by apply list_fmap_ext. Qed.

(** One iteration on such a state: either no set contains [e] and the loop
    is left, or the dual variable of [e] is raised by the least gap [y]
    among the sets that contain [e]. *)
Lemma grow_element_slots e st :
  Forall (fun t => slot_sum t <= slot_cost t) st →
  (Forall (fun t => covers (slot_set t) e = false) st ∧
   grow_element (c_of st) (sum_of st) (row_of e st) = None) ∨
  (∃ y, 0 <= y ∧
     Forall (fun t => covers (slot_set t) e = true →
                      y <= slot_cost t - slot_sum t) st ∧
     Exists (fun t => covers (slot_set t) e = true ∧
                      y == slot_cost t - slot_sum t) st ∧
     grow_element (c_of st) (sum_of st) (row_of e st) =
     Some (sum_of (grow_slot y e <$> st))).
Proof.
  intros Hle. unfold grow_element.
  pose proof (max_possible_incr_slots e st PInf I Hle) as H.
  unfold infinity.
  destruct (max_possible_incr _ _ _) as [y| | |]; try done.
  - right. exists y. destruct H as (Hy & _ & Hall & [(a & Ha & _)|Hex]);
      [done|]. repeat split; try done.
    cbn [deq]. f_equal. unfold sum_of, row_of.
    rewrite zip_with_fmap_l, zip_with_fmap_r, zip_with_diag.
    rewrite <- list_fmap_compose. apply list_fmap_ext. intros _ t _.
    simpl. by destruct (covers (slot_set t) e).
  - left. by destruct H.
Qed.

Lemma grow_slot_le y e t :
  0 <= y → slot_sum t <= slot_sum (grow_slot y e t).
Proof.
  intros Hy. simpl. destruct (covers (slot_set t) e); simpl; lra.
Qed.

Lemma grow_slot_feasible y e t :
  slot_sum t <= slot_cost t →
  (covers (slot_set t) e = true → y <= slot_cost t - slot_sum t) →
  slot_sum (grow_slot y e t) <= slot_cost (grow_slot y e t).
Proof.
  intros Hle Hy. simpl. destruct (covers (slot_set t) e); simpl.
  - specialize (Hy eq_refl). lra.
  - lra.
Qed.

Lemma grow_slot_tight y e t :
  0 <= y →
  (covers (slot_set t) e = true → y <= slot_cost t - slot_sum t) →
  slot_sum t == slot_cost t →
  slot_sum (grow_slot y e t) == slot_cost (grow_slot y e t).
Proof.
  intros Hy0 Hy Ht. simpl. destruct (covers (slot_set t) e); simpl.
  - specialize (Hy eq_refl). assert (y == 0) as -> by lra. lra.
  - lra.
Qed.

(** The dual-growth loop over the elements [es] on a dual-feasible state
    in which every element of [es] is contained in some set: the loop
    runs to its end, the state stays dual-feasible, sets that are tight
    stay tight, and each element of [es] ends up in a tight set. *)
Lemma dual_growth_slots es : ∀ st,
  Forall (fun t => slot_sum t <= slot_cost t) st →
  (∀ e, e ∈ es → Exists (fun t => covers (slot_set t) e = true) st) →
  ∃ ys, length ys = length es ∧ Forall (fun y => 0 <= y) ys ∧
    dual_growth (c_of st) ((fun e => row_of e st) <$> es) (sum_of st) =
    Some (sum_of (run es ys st)) ∧
    Forall (fun t => slot_sum t <= slot_cost t) (run es ys st) ∧
    (∀ P : list Z → Prop,
       Exists (fun t => P (slot_set t) ∧ slot_sum t == slot_cost t) st →
       Exists (fun t => P (slot_set t) ∧ slot_sum t == slot_cost t)
         (run es ys st)) ∧
    (∀ e, e ∈ es →
       Exists (fun t => covers (slot_set t) e = true ∧
                        slot_sum t == slot_cost t) (run es ys st)).
Proof.
  induction es as [|e es IH]; intros st Hle Hcov.
  - exists []. repeat split; try done. intros e He. by apply elem_of_nil in He.
  - destruct (grow_element_slots e st Hle)
      as [[Hnone _]|(y & Hy0 & Hall & Hex & Hstep)].
    { specialize (Hcov e (list_elem_of_here _ _)).
      apply Exists_exists in Hcov as (t & Ht & Hc).
      rewrite Forall_forall in Hnone. specialize (Hnone t Ht). congruence. }
    set (st1 := grow_slot y e <$> st).
    assert (Forall (fun t => slot_sum t <= slot_cost t) st1) as Hle1.
    { unfold st1. apply Forall_fmap. rewrite Forall_forall in Hle, Hall.
      apply Forall_forall. intros t Ht. apply grow_slot_feasible; auto. }
    assert (∀ P : list Z → Prop,
       Exists (fun t => P (slot_set t) ∧ slot_sum t == slot_cost t) st →
       Exists (fun t => P (slot_set t) ∧ slot_sum t == slot_cost t) st1)
      as Hkeep.
    { intros P (t & Ht & HP & Htight)%Exists_exists. unfold st1.
      apply Exists_fmap, Exists_exists. exists t. split; [done|].
      split; [done|]. rewrite Forall_forall in Hall.
      apply grow_slot_tight; auto. }
    destruct (IH st1 Hle1) as (ys & Hlen & Hys & Hrun & Hfin & Hpers & Htight).
    { intros e' He'. unfold st1. apply Exists_fmap.
      apply (Hcov e'). by apply list_elem_of_further. }
    exists (y :: ys). split; [simpl; lia|]. split; [by constructor|].
    split; [|split; [done|split]].
    + rewrite fmap_cons. cbn [dual_growth]. rewrite Hstep. fold st1.
      cbn [run]. fold st1. rewrite <- Hrun. unfold st1.
      rewrite c_of_grow. f_equal. apply list_fmap_ext. intros _ e' _.
      by rewrite row_of_grow.
    + intros P HP. cbn [run]. apply Hpers, Hkeep, HP.
    + intros e' [->|He']%elem_of_cons; cbn [run]; fold st1; [|by apply Htight].
      apply (Hpers (fun s => covers s e = true)). unfold st1.
      apply Exists_exists in Hex as (t & Ht & Hc & Hyt).
      apply Exists_fmap, Exists_exists. exists t. split; [done|].
      split; [done|]. simpl. rewrite Hc. simpl. lra.
Qed.

Lemma nonneg_cost_fin d : nonneg_cost d → d = Fin (qval d) ∧ 0 <= qval d.
Proof. by destruct d. Qed.

Section SlotsOf.
Variable inst : Instance.
Hypothesis Hverify : verify inst = true.

Lemma length_costs : length (costs inst) = length (sets inst).
Proof. by apply verify_spec in Hverify as [? _]. Qed.

Lemma length_slots_of : length (slots_of inst) = length (sets inst).
Proof.
  unfold slots_of. rewrite length_zip_with_l_eq; [done|].
  by rewrite length_costs.
Qed.

Lemma slots_of_lookup i t :
  slots_of inst !! i = Some t →
  ∃ d, sets inst !! i = Some (slot_set t) ∧ costs inst !! i = Some d ∧
       slot_cost t = qval d ∧ slot_sum t = 0.
Proof.
  unfold slots_of. rewrite lookup_zip_with.
  destruct (sets inst !! i) as [s|]; [simpl|done].
  destruct (costs inst !! i) as [d|]; [simpl|done].
  intros [= <-]. by exists d.
Qed.

Lemma sets_slots_of : slot_set <$> slots_of inst = sets inst.
Proof.
  unfold slots_of. pose proof length_costs as Hlen.
  revert Hlen. generalize (costs inst).
  induction (sets inst) as [|s ss IH]; intros [|d cs] Hlen; try done.
  simpl. f_equal. apply IH. simpl in Hlen. lia.
Qed.

Lemma row_of_slots_of e :
  coverage_row zeroed (sets inst) e = row_of e (slots_of inst).
Proof.
  unfold coverage_row, row_of. rewrite <- sets_slots_of at 1.
  generalize (slots_of inst). intros st.
  induction st as [|t st IH]; [done|]. rewrite fmap_cons, imap_cons.
  simpl. f_equal. apply IH.
Qed.

Lemma sum_of_slots_of : initial_sum zeroed inst = sum_of (slots_of inst).
Proof.
  unfold initial_sum, alloc_vector, sum_of. apply list_eq. intros i.
  rewrite !list_lookup_fmap. simpl.
  destruct (slots_of inst !! i) as [t|] eqn:Ht; simpl.
  - destruct (slots_of_lookup _ _ Ht) as (d & Hs & _ & _ & ->).
    apply lookup_lt_Some in Hs. by rewrite lookup_seq_lt.
  - apply lookup_ge_None in Ht. rewrite length_slots_of in Ht.
    by rewrite lookup_seq_ge.
Qed.

Hypothesis Hcosts : Forall nonneg_cost (costs inst).

Lemma c_of_slots_of : cost_vector inst = c_of (slots_of inst).
Proof.
  unfold cost_vector, c_of. rewrite <- length_costs, firstn_all.
  apply list_eq. intros i. rewrite list_lookup_fmap.
  destruct (slots_of inst !! i) as [t|] eqn:Ht; simpl.
  - destruct (slots_of_lookup _ _ Ht) as (d & _ & Hd & -> & _).
    rewrite Hd. f_equal. rewrite Forall_forall in Hcosts.
    apply nonneg_cost_fin, Hcosts. eapply list_elem_of_lookup_2, Hd.
  - apply lookup_ge_None in Ht. rewrite length_slots_of in Ht.
    apply lookup_ge_None. by rewrite length_costs.
Qed.

Lemma slots_of_feasible :
  Forall (fun t => slot_sum t <= slot_cost t) (slots_of inst).
Proof.
  apply Forall_lookup. intros i t Ht.
  destruct (slots_of_lookup _ _ Ht) as (d & _ & Hd & -> & ->).
  rewrite Forall_forall in Hcosts.
  apply nonneg_cost_fin, Hcosts. eapply list_elem_of_lookup_2, Hd.
Qed.

Lemma slots_of_covered e :
  (∃ s, s ∈ sets inst ∧ covers s e = true) →
  Exists (fun t => covers (slot_set t) e = true) (slots_of inst).
Proof.
  intros (s & Hs & Hc). rewrite <- sets_slots_of in Hs.
  apply list_elem_of_fmap in Hs as (t & -> & Ht).
  apply Exists_exists. eauto.
Qed.
End SlotsOf.

(** ** The extraction loop *)

Lemma elem_of_set_cover_from c : ∀ sum s0 i,
  i ∈ set_cover_from s0 c sum ↔
  (s0 <= i)%nat ∧ ∃ cs ss, c !! (i - s0)%nat = Some cs ∧
                           sum !! (i - s0)%nat = Some ss ∧ tight cs ss = true.
Proof.
  induction c as [|cs c IH]; intros [|ss sum] s0 i; cbn [set_cover_from];
    try (split; [by intros ?%elem_of_nil|by intros (_ & ? & ? & ? & ? & _)]).
  assert (i ∈ set_cover_from (S s0) c sum ↔
          (s0 < i)%nat ∧ ∃ cs' ss', (cs :: c) !! (i - s0)%nat = Some cs' ∧
            (ss :: sum) !! (i - s0)%nat = Some ss' ∧ tight cs' ss' = true)
    as Htl.
  { rewrite IH. split; intros (Hlt & cs' & ss' & H); (split; [lia|]);
      exists cs', ss'.
    - replace (i - s0)%nat with (S (i - S s0)) by lia. done.
    - replace (i - s0)%nat with (S (i - S s0)) in H by lia. done. }
  destruct (tight cs ss) eqn:Ht.
  - rewrite elem_of_cons, Htl. split.
    + intros [->|(Hlt & H)]; [|split; [lia|done]].
      split; [lia|]. rewrite Nat.sub_diag. by exists cs, ss.
    + intros (Hle & H). destruct (decide (i = s0)) as [->|Hne]; [by left|].
      right. split; [lia|done].
  - rewrite Htl. split.
    + intros (Hlt & H). split; [lia|done].
    + intros (Hle & cs' & ss' & Hc & Hs & Ht'). split; [|by exists cs', ss'].
      destruct (decide (i = s0)) as [->|Hne]; [|lia].
      rewrite Nat.sub_diag in Hc, Hs. simpl in Hc, Hs. congruence.
Qed.

Lemma set_cover_from_sorted c : ∀ sum s0,
  StronglySorted lt (set_cover_from s0 c sum).
Proof.
  induction c as [|cs c IH]; intros [|ss sum] s0; cbn [set_cover_from];
    try constructor.
  destruct (tight cs ss); [|apply IH]. constructor; [apply IH|].
  apply Forall_forall. intros i Hi.
  apply elem_of_set_cover_from in Hi as [Hi _]. lia.
Qed.

Lemma tight_exact c s : s == c → tight (Fin c) (Fin s) = true.
Proof.
  intros H. unfold tight, dsub, EPSILON. cbn [dopp dadd dabs dlt].
  apply Qltb_lt, Qabs_Qlt_condition. lra.
Qed.

Lemma tight_fin c s :
  tight (Fin c) (Fin s) = true ↔ Qabs (c - s) < 1 # 10000.
Proof.
  unfold tight, dsub, EPSILON. cbn [dopp dadd dabs dlt]. apply Qltb_lt.
Qed.

(** ** What [run] does to each set *)

Lemma run_lookup es : ∀ ys st i t',
  run es ys st !! i = Some t' →
  ∃ t, st !! i = Some t ∧ slot_set t' = slot_set t ∧
       slot_cost t' = slot_cost t ∧
       slot_sum t' == slot_sum t + load es ys (slot_set t).
Proof.
  induction es as [|e es IH]; intros [|y ys] st i t' Hi; cbn [run] in Hi;
    try (exists t'; repeat split; try done; unfold load; simpl; lra).
  destruct (IH _ _ _ _ Hi) as (t1 & Ht1 & Hs & Hc & Hq).
  rewrite list_lookup_fmap in Ht1.
  destruct (st !! i) as [t|]; [simpl in Ht1|done]. injection Ht1 as <-.
  exists t. repeat split; try done. rewrite Hq. unfold load. simpl. lra.
Qed.

Lemma length_run es : ∀ ys st, length (run es ys st) = length st.
Proof.
  induction es as [|e es IH]; intros [|y ys] st; cbn [run]; try done.
  by rewrite IH, length_fmap.
Qed.

(** ** The loop as a whole *)

Lemma c_of_run es : ∀ ys st, c_of (run es ys st) = c_of st.
Proof.
  induction es as [|e es IH]; intros [|y ys] st; cbn [run]; try done.
  by rewrite IH, c_of_grow.
Qed.

(** [solve] on zero-filled storage, for a feasible instance with finite
    non-negative costs and exact arithmetic, in terms of the final state
    of the slots. *)
Lemma solve_zeroed inst :
  verify inst = true → Forall nonneg_cost (costs inst) → feasible inst →
  ∃ ys, length ys = nr_elements inst ∧ Forall (fun y => 0 <= y) ys ∧
    let final := run (seq 0 (nr_elements inst)) ys (slots_of inst) in
    solve zeroed inst =
    Return [] (set_cover_from 0 (c_of final) (sum_of final)) ∧
    Forall (fun t => slot_sum t <= slot_cost t) final ∧
    (∀ e, (e < nr_elements inst)%nat →
       Exists (fun t => covers (slot_set t) e = true ∧
                        slot_sum t == slot_cost t) final) ∧
    dual_growth (cost_vector inst) (coverage_matrix zeroed inst)
      (initial_sum zeroed inst) = Some (sum_of final).
Proof.
  intros Hv Hc Hf.
  destruct (dual_growth_slots (seq 0 (nr_elements inst)) (slots_of inst))
    as (ys & Hlen & Hys & Hrun & Hfin & _ & Htight).
  { by apply slots_of_feasible. }
  { intros e [_ He]%elem_of_seq. apply slots_of_covered; [done|].
    apply Hf. lia. }
  assert (dual_growth (cost_vector inst) (coverage_matrix zeroed inst)
            (initial_sum zeroed inst) =
          Some (sum_of (run (seq 0 (nr_elements inst)) ys (slots_of inst))))
    as Hgrow.
  { rewrite coverage_matrix_closed by done.
    rewrite c_of_slots_of, sum_of_slots_of by done.
    rewrite (list_fmap_ext (coverage_row zeroed (sets inst))
               (fun e => row_of e (slots_of inst))
               (seq 0 (nr_elements inst)))
      by (intros; by apply row_of_slots_of).
    exact Hrun. }
  exists ys. rewrite length_seq in Hlen. repeat split; try done.
  - unfold solve. rewrite Hv, Hgrow.
    by rewrite c_of_slots_of, c_of_run.
  - intros e He. apply Htight, elem_of_seq. lia.
Qed.

Lemma final_lookup inst ys i t :
  verify inst = true →
  run (seq 0 (nr_elements inst)) ys (slots_of inst) !! i = Some t →
  ∃ d, sets inst !! i = Some (slot_set t) ∧ costs inst !! i = Some d ∧
       slot_cost t = qval d ∧
       slot_sum t == load (seq 0 (nr_elements inst)) ys (slot_set t).
Proof.
  intros Hv Ht. apply run_lookup in Ht as (t0 & Ht0 & Hs & Hc & Hq).
  destruct (slots_of_lookup _ _ _ Ht0) as (d & Hs0 & Hd & Hc0 & Hq0).
  exists d. rewrite Hs, Hc. repeat split; try done. rewrite Hq, Hq0. lra.
Qed.

(** ** Integer costs: the arithmetic stays exact

    The lemmas on dual growth above are about the rational model of the
    arithmetic.  They carry over to the program when every value the
    loop computes is represented exactly.  With zero-filled storage and
    costs that are integers between 0 and 2^53 this is the case: every
    gap, increment and component of [sum] is an integer between 0 and a
    cost, and on such numbers binary64 addition and subtraction,
    multiplication by 0 or 1 and division by 1 are exact, while the tests
    against [EPSILON] have the same result for the double nearest to
    0.0001 as for 1/10000. *)

Lemma is_int_inject z : is_int (inject_Z z).
Proof. by exists z. Qed.

Lemma is_int_plus x y : is_int x → is_int y → is_int (x + y).
Proof.
  intros [a Ha] [b Hb]. exists (a + b)%Z. rewrite inject_Z_plus, Ha, Hb.
  reflexivity.
Qed.

Lemma is_int_opp x : is_int x → is_int (- x).
Proof.
  intros [a Ha]. exists (- a)%Z. rewrite inject_Z_opp, Ha. reflexivity.
Qed.

Lemma is_int_mult x y : is_int x → is_int y → is_int (x * y).
Proof.
  intros [a Ha] [b Hb]. exists (a * b)%Z. rewrite inject_Z_mult, Ha, Hb.
  reflexivity.
Qed.

Lemma is_int_div_1 x : is_int x → is_int (x / 1).
Proof.
  intros [a Ha]. exists a. rewrite <- Ha. field.
Qed.

(** Two integers less than [EPSILON] apart are equal. *)
Lemma is_int_tight c s :
  is_int c → is_int s → Qabs (c - s) < 1 # 10000 → s == c.
Proof.
  intros [a Ha] [b Hb] Ht. apply Qabs_Qlt_condition in Ht as [Hlo Hhi].
  rewrite Ha, Hb in Hlo, Hhi |- *.
  assert (inject_Z (a - b) < inject_Z 1) as H1.
  { unfold Z.sub. rewrite inject_Z_plus, inject_Z_opp.
    change (inject_Z 1) with 1. lra. }
  assert (inject_Z (-1) < inject_Z (a - b)) as H2.
  { unfold Z.sub. rewrite inject_Z_plus, inject_Z_opp.
    change (inject_Z (-1)) with (-1). lra. }
  rewrite <- Zlt_Qlt in H1, H2. assert (a = b) as -> by lia. reflexivity.
Qed.

Lemma integer_cost_nonneg d : integer_cost d → nonneg_cost d.
Proof.
  intros (z & [Hz _] & ->). simpl. change 0 with (inject_Z 0).
  by rewrite <- Zle_Qle.
Qed.

Lemma integer_cost_integral d : integer_cost d → integral d.
Proof. intros (z & _ & ->). apply is_int_inject. Qed.

Lemma integer_costs_nonneg cs :
  Forall integer_cost cs → Forall nonneg_cost cs.
Proof.
  intros H. eapply Forall_impl; [exact H|]. apply integer_cost_nonneg.
Qed.

Lemma integer_costs_spec cs :
  forallb integer_costb cs = true → Forall integer_cost cs.
Proof.
  rewrite forallb_forall. intros H. apply Forall_forall. intros d Hd.
  apply list_elem_of_In, H in Hd. destruct d as [[n p]| | |]; try done.
  cbn [integer_costb Qden Qnum] in Hd.
  apply andb_true_iff in Hd as [Hd Hhi].
  apply andb_true_iff in Hd as [Hp Hlo].
  apply Pos.eqb_eq in Hp as ->. exists n. split; [lia|done].
Qed.

Lemma dmin_cases a b : dmin a b = a ∨ dmin a b = b.
Proof. unfold dmin. destruct (dlt b a); auto. Qed.

Lemma max_possible_incr_integral row : ∀ gap acc,
  acc = PInf ∨ integral acc → Forall bit01 row → Forall integral gap →
  max_possible_incr acc row gap = PInf ∨
  integral (max_possible_incr acc row gap).
Proof.
  induction row as [|a row IH]; intros [|g gap] acc Hacc Hrow Hgap;
    try done.
  apply Forall_cons in Hrow as [Ha Hrow].
  apply Forall_cons in Hgap as [Hg Hgap].
  cbn [max_possible_incr]. apply IH; [|done|done].
  destruct Ha as [-> | ->].
  - by change (dlt (Fin 0) EPSILON) with true.
  - change (dlt (Fin 1) EPSILON) with false. cbn match.
    destruct g as [q| | |]; try done.
    change (ddiv (Fin q) (Fin 1)) with (Fin (q / 1)).
    destruct (dmin_cases acc (Fin (q / 1))) as [-> | ->]; [done|].
    right. by apply is_int_div_1.
Qed.

Lemma integral_gap (c sum : vec) :
  Forall integral c → Forall integral sum →
  Forall integral (zip_with dsub c sum).
Proof.
  intros Hc Hs. apply Forall_lookup. intros i g.
  rewrite lookup_zip_with.
  destruct (c !! i) as [x|] eqn:Hx; [simpl|done].
  destruct (sum !! i) as [y|] eqn:Hy; [simpl|done]. intros [= <-].
  rewrite Forall_lookup in Hc, Hs.
  specialize (Hc i x Hx). specialize (Hs i y Hy).
  destruct x, y; try done. simpl. by apply is_int_plus, is_int_opp.
Qed.

(** One iteration keeps [sum] in the integers. *)
Lemma grow_element_integral c sum row sum' :
  Forall integral c → Forall integral sum → Forall bit01 row →
  grow_element c sum row = Some sum' →
  integral (max_possible_incr infinity row (zip_with dsub c sum)) ∧
  Forall integral sum'.
Proof.
  intros Hc Hs Hrow. unfold grow_element.
  destruct (max_possible_incr_integral row (zip_with dsub c sum) infinity)
    as [Hinf|Hint]; [by left|done|by apply integral_gap| |].
  { by rewrite Hinf. }
  destruct (max_possible_incr _ _ _) as [y| | |]; try done.
  cbn [deq]. intros [= <-]. split; [done|].
  apply Forall_lookup. intros i s'. rewrite lookup_zip_with.
  destruct (sum !! i) as [s|] eqn:Hsi; [simpl|done].
  destruct (row !! i) as [a|] eqn:Hai; [simpl|done]. intros [= <-].
  rewrite Forall_lookup in Hs, Hrow.
  specialize (Hs i s Hsi). destruct (Hrow i a Hai) as [-> | ->];
    destruct s; try done; simpl; apply is_int_plus; try done;
    apply is_int_mult; try done.
  - apply (is_int_inject 0).
  - apply (is_int_inject 1).
Qed.

(** The loop keeps [sum] in the integers, at every iteration. *)
Lemma sum_trace_integral c rows : ∀ sum u,
  Forall integral c → Forall integral sum → Forall (Forall bit01) rows →
  u ∈ sum_trace c rows sum → Forall integral u.
Proof.
  induction rows as [|row rows IH]; intros sum u Hc Hs Hrows Hu.
  - by apply list_elem_of_singleton in Hu as ->.
  - cbn [sum_trace] in Hu. apply elem_of_cons in Hu as [->|Hu]; [done|].
    apply Forall_cons in Hrows as [Hrow Hrows].
    destruct (grow_element c sum row) as [sum'|] eqn:Hg;
      [|by apply elem_of_nil in Hu].
    apply (IH sum'); try done.
    by apply (grow_element_integral c sum row sum').
Qed.

Lemma dual_growth_integral c rows : ∀ sum sum',
  Forall integral c → Forall integral sum → Forall (Forall bit01) rows →
  dual_growth c rows sum = Some sum' → Forall integral sum'.
Proof.
  induction rows as [|row rows IH]; intros sum sum' Hc Hs Hrows Hd.
  - cbn in Hd. by injection Hd as <-.
  - cbn [dual_growth] in Hd. apply Forall_cons in Hrows as [Hrow Hrows].
    destruct (grow_element c sum row) as [sum1|] eqn:Hg; [|done].
    apply (IH sum1); try done.
    by apply (grow_element_integral c sum row sum1).
Qed.

Lemma incr_trace_integral c rows : ∀ sum,
  Forall integral c → Forall integral sum → Forall (Forall bit01) rows →
  Forall integral (incr_trace c rows sum).
Proof.
  induction rows as [|row rows IH]; intros sum Hc Hs Hrows; [constructor|].
  cbn [incr_trace]. apply Forall_cons in Hrows as [Hrow Hrows].
  destruct (grow_element c sum row) as [sum1|] eqn:Hg; [|constructor].
  destruct (grow_element_integral c sum row sum1) as [Hi Hs1]; try done.
  constructor; [done|]. by apply IH.
Qed.

(** What [solve] starts from on zero-filled storage. *)
Lemma coverage_rows_bit01 inst :
  Forall (Forall bit01)
    (coverage_row zeroed (sets inst) <$> seq 0 (nr_elements inst)).
Proof.
  apply Forall_fmap, Forall_forall. intros e _. apply Forall_lookup.
  intros i a. unfold coverage_row. rewrite list_lookup_imap.
  destruct (sets inst !! i) as [s|]; [simpl|done]. intros [= <-].
  destruct (covers s e); [by right|by left].
Qed.

Lemma initial_sum_integral inst : Forall integral (initial_sum zeroed inst).
Proof.
  unfold initial_sum, alloc_vector. apply Forall_fmap, Forall_forall.
  intros i _. apply (is_int_inject 0).
Qed.

Lemma cost_vector_integral inst :
  Forall integer_cost (costs inst) → Forall integral (cost_vector inst).
Proof.
  intros Hc. unfold cost_vector. apply Forall_take.
  eapply Forall_impl; [exact Hc|]. apply integer_cost_integral.
Qed.

(** [solve] on zero-filled storage, for a feasible instance whose costs
    are integers between 0 and 2^53: as [solve_zeroed], and the final
    value of [sum] is made of integers. *)
Lemma solve_integer inst :
  verify inst = true → Forall integer_cost (costs inst) → feasible inst →
  ∃ ys, length ys = nr_elements inst ∧ Forall (fun y => 0 <= y) ys ∧
    let final := run (seq 0 (nr_elements inst)) ys (slots_of inst) in
    solve zeroed inst =
    Return [] (set_cover_from 0 (c_of final) (sum_of final)) ∧
    Forall (fun t => slot_sum t <= slot_cost t) final ∧
    (∀ e, (e < nr_elements inst)%nat →
       Exists (fun t => covers (slot_set t) e = true ∧
                        slot_sum t == slot_cost t) final) ∧
    Forall (fun t => is_int (slot_cost t) ∧ is_int (slot_sum t)) final.
Proof.
  intros Hv Hi Hf. pose proof (integer_costs_nonneg _ Hi) as Hc.
  destruct (solve_zeroed inst Hv Hc Hf)
    as (ys & Hlen & Hys & Hsolve & Hfin & Htight & Hgrow).
  exists ys. split; [done|]. split; [done|].
  set (final := run (seq 0 (nr_elements inst)) ys (slots_of inst)) in *.
  cbv zeta. split; [done|]. split; [done|]. split; [done|].
  apply dual_growth_integral in Hgrow.
  2: by apply cost_vector_integral.
  2: apply initial_sum_integral.
  2: { rewrite coverage_matrix_closed by done. apply coverage_rows_bit01. }
  pose proof (cost_vector_integral inst Hi) as Hcint.
  rewrite c_of_slots_of in Hcint by done.
  rewrite <- (c_of_run (seq 0 (nr_elements inst)) ys) in Hcint.
  fold final in Hcint. unfold c_of in Hcint. unfold sum_of in Hgrow.
  rewrite Forall_fmap in Hcint, Hgrow.
  rewrite Forall_forall in Hcint, Hgrow. apply Forall_forall.
  intros t Ht. split; [by apply Hcint|by apply Hgrow].
Qed.

(** ** Sums of rationals and double counting *)

Lemma Qsum_cons x l : Qsum (x :: l) = x + Qsum l.
Proof. done. Qed.

Lemma Qsum_zip_le {A} (F G : A → Q → Q) es : ∀ ys,
  Forall (fun y => 0 <= y) ys →
  (∀ e y, e ∈ es → 0 <= y → F e y <= G e y) →
  Qsum (zip_with F es ys) <= Qsum (zip_with G es ys).
Proof.
  induction es as [|e es IH]; intros [|y ys] Hys HFG; simpl; try lra.
  apply Forall_cons in Hys as [Hy Hys].
  assert (F e y <= G e y) by (apply HFG; [apply list_elem_of_here|done]).
  assert (Qsum (zip_with F es ys) <= Qsum (zip_with G es ys)).
  { apply IH; [done|]. intros e' y' He'. apply HFG.
    by apply list_elem_of_further. }
  lra.
Qed.

Lemma Qsum_zip_plus {A} (F G : A → Q → Q) es : ∀ ys,
  Qsum (zip_with (fun e y => F e y + G e y) es ys) ==
  Qsum (zip_with F es ys) + Qsum (zip_with G es ys).
Proof.
  induction es as [|e es IH]; intros [|y ys]; simpl; try lra.
  rewrite IH. lra.
Qed.

Lemma Qsum_zip_scale {A} (k : Q) (F : A → Q → Q) es : ∀ ys,
  Qsum (zip_with (fun e y => k * F e y) es ys) == k * Qsum (zip_with F es ys).
Proof.
  induction es as [|e es IH]; intros [|y ys]; simpl; try lra.
  rewrite IH. lra.
Qed.

Lemma Qsum_fmap_le {A} (F G : A → Q) l :
  (∀ x, x ∈ l → F x <= G x) → Qsum (F <$> l) <= Qsum (G <$> l).
Proof.
  induction l as [|x l IH]; intros H; [simpl; lra|].
  rewrite !fmap_cons, !Qsum_cons.
  assert (F x <= G x) by apply H, list_elem_of_here.
  assert (Qsum (F <$> l) <= Qsum (G <$> l))
    by (apply IH; intros; by apply H, list_elem_of_further).
  lra.
Qed.

Lemma count_length p l :
  count p l == inject_Z (Z.of_nat (length (filter (fun i => p i = true) l))).
Proof.
  unfold count. induction l as [|i l IH]; [done|].
  rewrite fmap_cons, Qsum_cons, IH, filter_cons.
  destruct (p i); simpl bit.
  - rewrite decide_True by done. cbn [length].
    rewrite Nat2Z.inj_succ, <- Z.add_1_r, inject_Z_plus.
    change (inject_Z 1) with 1.
    lra.
  - rewrite decide_False by done. lra.
Qed.

Lemma count_nonneg p l : 0 <= count p l.
Proof.
  unfold count. induction l as [|i l IH]; [simpl; lra|].
  rewrite fmap_cons, Qsum_cons. destruct (p i); simpl bit; lra.
Qed.

Lemma count_ge_1 p l i : i ∈ l → p i = true → 1 <= count p l.
Proof.
  unfold count. induction l as [|j l IH]; intros Hi Hp.
  - by apply elem_of_nil in Hi.
  - rewrite fmap_cons, Qsum_cons. apply elem_of_cons in Hi as [->|Hi].
    + rewrite Hp. simpl bit. pose proof (count_nonneg p l). unfold count in *.
      lra.
    + specialize (IH Hi Hp). destruct (p j); simpl bit; lra.
Qed.

Lemma count_le_seq p l m :
  NoDup l → (∀ i, i ∈ l → (i < m)%nat) →
  count p l <=
  inject_Z (Z.of_nat (length (filter (fun i => p i = true) (seq 0 m)))).
Proof.
  intros Hnd Hlt. rewrite count_length. rewrite <- Zle_Qle.
  apply Nat2Z.inj_le, submseteq_length, NoDup_submseteq.
  - by apply NoDup_filter.
  - intros i [Hp Hi]%list_elem_of_filter. apply list_elem_of_filter.
    split; [done|]. apply elem_of_seq. specialize (Hlt i Hi). lia.
Qed.

Lemma Qsum_zip_ext {A} (F G : A → Q → Q) es : ∀ ys,
  (∀ e y, F e y == G e y) →
  Qsum (zip_with F es ys) == Qsum (zip_with G es ys).
Proof.
  induction es as [|e es IH]; intros [|y ys] HFG; simpl; try lra.
  rewrite (HFG e y), (IH ys HFG). lra.
Qed.

Lemma Qsum_zip_zero {A} (es : list A) : ∀ ys : list Q,
  Qsum (zip_with (fun _ _ => 0) es ys) == 0.
Proof.
  induction es as [|e es IH]; intros [|y ys]; simpl; try lra.
  rewrite IH. lra.
Qed.

(** Summing the loads of the sets at the indices [l] counts the dual
    variable of each element once per set of [l] that contains it. *)
Lemma Qsum_load_exchange (set_at : nat → list Z) es ys l :
  Qsum ((fun i => load es ys (set_at i)) <$> l) ==
  Qsum (zip_with (fun e y => y * count (fun i => covers (set_at i) e) l) es ys).
Proof.
  induction l as [|i l IH].
  - rewrite (Qsum_zip_ext _ (fun _ _ => 0)).
    + rewrite Qsum_zip_zero. reflexivity.
    + intros e y. unfold count. simpl. lra.
  - rewrite fmap_cons, Qsum_cons, IH. unfold load.
    rewrite <- Qsum_zip_plus. apply Qsum_zip_ext. intros e y.
    unfold count. rewrite fmap_cons, Qsum_cons. lra.
Qed.

Section DoubleCounting.
Variable set_at : nat → list Z.
Variable m f : nat.
Variable es : list nat.
Variable ys : list Q.
Hypothesis Hys : Forall (fun y => 0 <= y) ys.
Hypothesis Hlen : length ys = length es.

(** Every element of [es] is in at most [f] of the sets [0..m-1]. *)
Hypothesis Hfreq : ∀ e, e ∈ es →
  (length (filter (fun i => covers (set_at i) e = true) (seq 0 m)) <= f)%nat.

Lemma load_upper l :
  NoDup l → (∀ i, i ∈ l → (i < m)%nat) →
  Qsum ((fun i => load es ys (set_at i)) <$> l) <=
  inject_Z (Z.of_nat f) * Qsum ys.
Proof.
  intros Hnd Hlt. rewrite Qsum_load_exchange.
  assert (Qsum ys == Qsum (zip_with (fun _ y => y) es ys)) as ->.
  { clear Hfreq Hys. revert ys Hlen.
    induction es as [|e es' IH]; intros [|y ys'] Hl; simpl in *; try done.
    rewrite <- IH by lia. reflexivity. }
  rewrite <- Qsum_zip_scale. apply Qsum_zip_le; [done|].
  intros e y He Hy.
  assert (count (fun i => covers (set_at i) e) l <= inject_Z (Z.of_nat f)).
  { eapply Qle_trans; [by apply (count_le_seq _ _ m)|].
    rewrite <- Zle_Qle. apply Nat2Z.inj_le, Hfreq, He. }
  nra.
Qed.

Lemma load_lower l :
  (∀ e, e ∈ es → ∃ i, i ∈ l ∧ covers (set_at i) e = true) →
  Qsum ys <= Qsum ((fun i => load es ys (set_at i)) <$> l).
Proof.
  intros Hcov. rewrite Qsum_load_exchange.
  assert (Qsum ys == Qsum (zip_with (fun _ y => y) es ys)) as ->.
  { clear Hfreq Hys Hcov. revert ys Hlen.
    induction es as [|e es' IH]; intros [|y ys'] Hl; simpl in *; try done.
    rewrite <- IH by lia. reflexivity. }
  apply Qsum_zip_le; [done|]. intros e y He Hy.
  destruct (Hcov e He) as (i & Hi & Hc).
  pose proof (count_ge_1 (fun i => covers (set_at i) e) l i Hi Hc). nra.
Qed.
End DoubleCounting.

(** ** Frequencies and costs *)

Lemma filter_ext_in {A} (P Q : A → Prop) `{∀ x, Decision (P x)}
    `{∀ x, Decision (Q x)} (l : list A) :
  (∀ x, x ∈ l → P x ↔ Q x) → filter P l = filter Q l.
Proof.
  induction l as [|x l IH]; intros HPQ; [done|].
  rewrite !filter_cons.
  assert (filter P l = filter Q l) as ->
    by (apply IH; intros; by apply HPQ, list_elem_of_further).
  destruct (HPQ x (list_elem_of_here _ _)).
  repeat case_decide; naive_solver.
Qed.

Lemma frequency_seq (e : nat) (l : list (list Z)) : ∀ k,
  length (filter (fun i => covers (default [] (l !! (i - k)%nat)) e = true)
            (seq k (length l))) =
  length (filter (fun s => covers s e = true) l).
Proof.
  induction l as [|s l IH]; intros k; [done|].
  cbn [length seq]. rewrite !filter_cons, Nat.sub_diag.
  cbn [lookup list_lookup default].
  rewrite (filter_ext_in _
             (fun i => covers (default [] (l !! (i - S k)%nat)) e = true)).
  - specialize (IH (S k)). change (id s) with s.
    destruct (covers s e); repeat case_decide; try done; cbn [length];
      by rewrite IH.
  - intros i [Hi _]%elem_of_seq.
    replace (i - k)%nat with (S (i - S k)) by lia. done.
Qed.

Lemma frequency_le_max inst e :
  (e < nr_elements inst)%nat → (frequency inst e <= max_frequency inst)%nat.
Proof.
  intros He. apply max_list_elem_of_le, list_elem_of_fmap.
  exists e. split; [done|]. apply elem_of_seq. lia.
Qed.

Lemma set_cover_from_NoDup c sum s0 : NoDup (set_cover_from s0 c sum).
Proof.
  pose proof (set_cover_from_sorted c sum s0) as H.
  induction H as [|i l Hs IH Hall]; constructor; [|done].
  intros Hi. rewrite Forall_forall in Hall. specialize (Hall i Hi). lia.
Qed.

Lemma dle_fin a b : dle (Fin a) (Fin b) = true ↔ a <= b.
Proof.
  unfold dle. cbn [dlt deq].
  rewrite orb_true_iff, Qltb_lt, Qeq_bool_iff. split; [intros [?|?]; lra|].
  intros H. destruct (Qlt_le_dec a b); [by left|right; lra].
Qed.

Lemma total_cost_fin inst sel :
  Forall nonneg_cost (costs inst) →
  (∀ i, i ∈ sel → (i < length (costs inst))%nat) →
  total_cost inst sel = Fin (qcost inst sel).
Proof.
  intros Hc. unfold total_cost, qcost.
  induction sel as [|i sel IH]; intros Hsel; [done|].
  rewrite !fmap_cons. cbn [foldr]. rewrite IH
    by (intros; by apply Hsel, list_elem_of_further).
  destruct (lookup_lt_is_Some_2 (costs inst) i) as [d Hd];
    [apply Hsel, list_elem_of_here|].
  rewrite Hd. cbn [default]. rewrite Forall_forall in Hc.
  destruct (nonneg_cost_fin d) as [-> _];
    [eapply Hc, list_elem_of_lookup_2, Hd|]. done.
Qed.

(** ** The approximation bound *)

Lemma frequency_seq0 inst e :
  length (filter (fun i => covers (default [] (sets inst !! i)) e = true)
            (seq 0 (length (sets inst)))) = frequency inst e.
Proof.
  unfold frequency. rewrite <- (frequency_seq e (sets inst) 0).
  f_equal. apply filter_ext_in. intros i _. by rewrite Nat.sub_0_r.
Qed.

Lemma is_cover_feasible inst opt : is_cover inst opt → feasible inst.
Proof.
  intros [_ Hcov] e He.
  destruct (proj1 (Hcov (Z.of_nat e))) as (i & s & _ & Hs & Hin); [lia|].
  exists s. split; [eapply list_elem_of_lookup_2, Hs|].
  by apply bool_decide_eq_true.
Qed.

(** [C4], for zero-filled storage and costs that are integers between 0
    and 2^53: on every validated instance and for every cover [opt] of it
    (in particular a cover of least cost), the sets returned by [solve]
    cost at most [f] times the cost of [opt], [f] being the largest number
    of sets that contain one element.  With integer costs every component
    of [sum] is an integer, so that a set passes the test against
    [EPSILON] only when its slack is used up exactly. *)
Theorem C4_approximation inst opt :
  verify inst = true → Forall integer_cost (costs inst) → is_cover inst opt →
  ∃ sel, solve zeroed inst = Return [] sel ∧
    dle (total_cost inst sel)
        (dmul (dnat (max_frequency inst)) (total_cost inst opt)) = true.
Proof.
  intros Hv Hi Hopt. pose proof (is_cover_feasible _ _ Hopt) as Hf.
  pose proof (integer_costs_nonneg _ Hi) as Hc.
  destruct (solve_integer inst Hv Hi Hf)
    as (ys & Hlen & Hys & Hsolve & Hfin & _ & Hint).
  set (es := seq 0 (nr_elements inst)) in *.
  set (final := run es ys (slots_of inst)) in *.
  set (sel := set_cover_from 0 (c_of final) (sum_of final)) in *.
  set (set_at := fun i => default [] (sets inst !! i)).
  set (cq := fun i => qval (default NaN (costs inst !! i))).
  exists sel. split; [done|].
  assert (∀ i t, final !! i = Some t →
            cq i = slot_cost t ∧ slot_sum t == load es ys (set_at i)) as Hat.
  { intros i t Ht.
    destruct (final_lookup _ _ _ _ Hv Ht) as (d & Hs & Hd & Hcd & Hq).
    unfold cq, set_at. rewrite Hs, Hd. simpl. split; [done|]. exact Hq. }
  assert (∀ i, (i < length (sets inst))%nat → load es ys (set_at i) <= cq i)
    as Hfeas.
  { intros i Hi'. destruct (lookup_lt_is_Some_2 final i) as [t Ht].
    { unfold final. by rewrite length_run, length_slots_of. }
    destruct (Hat i t Ht) as [-> <-].
    rewrite Forall_forall in Hfin. eapply Hfin, list_elem_of_lookup_2, Ht. }
  assert (∀ i, i ∈ sel →
            (i < length (sets inst))%nat ∧
            cq i <= load es ys (set_at i)) as Hsel.
  { intros i (_ & cs & ss & Hcs & Hss & Ht)%elem_of_set_cover_from.
    rewrite Nat.sub_0_r in Hcs, Hss. unfold c_of, sum_of in Hcs, Hss.
    rewrite list_lookup_fmap in Hcs, Hss.
    destruct (final !! i) as [t|] eqn:Hit; [|done].
    simpl in Hcs, Hss. injection Hcs as <-. injection Hss as <-.
    split.
    - apply lookup_lt_Some in Hit. unfold final in Hit.
      by rewrite length_run, length_slots_of in Hit.
    - destruct (Hat i t Hit) as [-> <-].
      rewrite Forall_forall in Hint.
      destruct (Hint t) as [Hci Hsi]; [eapply list_elem_of_lookup_2, Hit|].
      apply tight_fin in Ht.
      pose proof (is_int_tight _ _ Hci Hsi Ht). lra. }
  destruct Hopt as [Hvalid Hcov].
  pose proof (length_costs inst Hv) as Hlc.
  rewrite !total_cost_fin; try done.
  2: { intros i Hi'. rewrite Hlc. by apply Hvalid. }
  2: { intros i Hi'. rewrite Hlc. by apply Hsel. }
  unfold dnat. cbn [dmul]. apply dle_fin.
  assert (qcost inst sel <=
          Qsum ((fun i => load es ys (set_at i)) <$> sel)) as H1.
  { apply Qsum_fmap_le. intros i Hi'. by apply Hsel. }
  assert (Qsum ((fun i => load es ys (set_at i)) <$> sel) <=
          inject_Z (Z.of_nat (max_frequency inst)) * Qsum ys) as H2.
  { apply (load_upper set_at (length (sets inst))); try done.
    - unfold es. by rewrite Hlen, length_seq.
    - intros e [_ He]%elem_of_seq. unfold set_at.
      rewrite frequency_seq0. apply frequency_le_max. lia.
    - apply set_cover_from_NoDup.
    - intros i Hi'. by apply Hsel. }
  assert (Qsum ys <= Qsum ((fun i => load es ys (set_at i)) <$> opt)) as H3.
  { apply load_lower; try done.
    - unfold es. by rewrite Hlen, length_seq.
    - intros e [_ He]%elem_of_seq.
      destruct (proj1 (Hcov (Z.of_nat e))) as (i & s & Hi' & Hs & Hin); [lia|].
      exists i. split; [done|]. unfold set_at. rewrite Hs. simpl.
      by apply bool_decide_eq_true. }
  assert (Qsum ((fun i => load es ys (set_at i)) <$> opt) <= qcost inst opt)
    as H4.
  { apply Qsum_fmap_le. intros i Hi'. by apply Hfeas, Hvalid. }
  assert (0 <= inject_Z (Z.of_nat (max_frequency inst))) as H5.
  { change 0 with (inject_Z 0). rewrite <- Zle_Qle. lia. }
  nra.
Qed.

(** ** Validation *)

Lemma verify_false_iff inst :
  verify inst = false ↔
  length (costs inst) ≠ length (sets inst) ∨
  ∃ s r, s ∈ sets inst ∧ r ∈ s ∧
         ¬ (0 <= r < Z.of_nat (nr_elements inst))%Z.
Proof.
  rewrite <- not_true_iff_false, verify_spec. split.
  - intros Hn.
    destruct (decide (length (costs inst) = length (sets inst))) as [Hl|Hl];
      [right|by left].
    destruct (decide (Exists (Exists (fun r =>
                ¬ (0 <= r < Z.of_nat (nr_elements inst))%Z)) (sets inst)))
      as [Hex|Hnex].
    + apply Exists_exists in Hex as (s & Hs & Hex).
      apply Exists_exists in Hex as (r & Hr & Hbad). eauto.
    + exfalso. apply Hn. split; [done|]. intros s r Hs Hr.
      destruct (decide (0 <= r < Z.of_nat (nr_elements inst))%Z); [done|].
      exfalso. apply Hnex, Exists_exists. exists s. split; [done|].
      apply Exists_exists. eauto.
  - intros [Hl|(s & r & Hs & Hr & Hbad)] [Hl' Hall]; [done|].
    apply Hbad. eauto.
Qed.

(** [C7]: [verify] fails exactly when the numbers of costs and of sets
    differ or some element index of some set lies outside
    [[0, nr_elements)]; the values of the costs (negative, infinite, NaN)
    play no part in it; and [solve], which calls [verify] first, then ends
    on the failed assertion whatever the storage holds, having written
    nothing and returned nothing. *)
Theorem C7_verify_structural inst :
  (verify inst = false ↔
   length (costs inst) ≠ length (sets inst) ∨
   ∃ s r, s ∈ sets inst ∧ r ∈ s ∧
          ¬ (0 <= r < Z.of_nat (nr_elements inst))%Z) ∧
  (∀ costs', length costs' = length (costs inst) →
     verify {| nr_elements := nr_elements inst; sets := sets inst;
               costs := costs' |} = verify inst) ∧
  (∀ h, verify inst = false → solve h inst = AssertFail).
Proof.
  split; [apply verify_false_iff|]. split.
  - intros costs' Hlen. unfold verify. simpl. by rewrite Hlen.
  - intros h Hv. unfold solve. by rewrite Hv.
Qed.

(** Costs that are negative, infinite or NaN pass validation. *)
Example verify_odd_costs :
  verify (add_set NaN [1]%Z (add_set PInf []%Z
            (add_set (Fin (-1)) [0; 1]%Z (construct 2)))) = true.
Proof. reflexivity. Qed.

(** ** Construction *)

Lemma foldl_add_set l : ∀ inst,
  let inst' := foldl (fun inst p => add_set p.1 p.2 inst) inst l in
  nr_elements inst' = nr_elements inst ∧
  sets inst' = sets inst ++ l.*2 ∧ costs inst' = costs inst ++ l.*1.
Proof.
  induction l as [|[c s] l IH]; intros inst; simpl.
  - by rewrite !app_nil_r.
  - destruct (IH (add_set c s inst)) as (Hn & Hs & Hc).
    rewrite Hn, Hs, Hc. simpl. by rewrite <- !app_assoc.
Qed.

(** [C10]: the constructor accepts every element count, zero included,
    and the fresh instance passes [verify]; on an instance constructed
    with zero elements [add_set] appends as usual, and [verify] passes
    exactly when every added set is empty. *)
Theorem C10_zero_elements (l : list (double * list Z)) :
  (∀ n, nr_elements (construct n) = n ∧ verify (construct n) = true) ∧
  nr_elements (build 0 l) = 0%nat ∧ sets (build 0 l) = l.*2 ∧
  costs (build 0 l) = l.*1 ∧
  (verify (build 0 l) = true ↔ Forall (fun p => p.2 = []) l).
Proof.
  destruct (foldl_add_set l (construct 0)) as (Hn & Hs & Hc).
  fold (build 0 l) in Hn, Hs, Hc. simpl in Hn, Hs, Hc.
  repeat split; try done.
  - intros [_ Hr]%verify_spec. rewrite Hn, Hs in Hr.
    apply Forall_forall. intros [c s] Hp. simpl.
    destruct s as [|r s]; [done|]. exfalso.
    assert (0 <= r < Z.of_nat 0)%Z; [|lia].
    apply (Hr (r :: s) r); [|apply list_elem_of_here].
    apply list_elem_of_fmap. by exists (c, r :: s).
  - intros Hall. apply verify_spec. rewrite Hn, Hs, Hc.
    split; [by rewrite !length_fmap|].
    intros s r [[c s'] [-> Hp]]%list_elem_of_fmap Hr.
    rewrite Forall_forall in Hall. specialize (Hall _ Hp). simpl in Hall, Hr.
    rewrite Hall in Hr. by apply elem_of_nil in Hr.
Qed.

(** ** Duplicates inside a set *)

Lemma same_members_sym ss' ss : same_members ss' ss → same_members ss ss'.
Proof.
  intros H. apply Forall2_flip. eapply Forall2_impl; [exact H|].
  intros s' s Hs r. symmetry. apply Hs.
Qed.

Lemma verify_same_members inst' inst :
  nr_elements inst' = nr_elements inst → costs inst' = costs inst →
  same_members (sets inst') (sets inst) →
  verify inst = true → verify inst' = true.
Proof.
  intros Hn Hc Hss [Hl Hr]%verify_spec. apply verify_spec.
  rewrite Hn, Hc, (Forall2_length _ _ _ Hss). split; [done|].
  intros s' r Hs' Hin. apply list_elem_of_lookup_1 in Hs' as [i Hi].
  destruct (Forall2_lookup_l _ _ _ _ _ Hss Hi) as (s & Hs & Hmem).
  apply (Hr s r); [eapply list_elem_of_lookup_2, Hs|by apply Hmem].
Qed.

(** The outcome of [solve] depends on the sets only through which
    elements each of them contains. *)
Lemma solve_same_members h inst' inst :
  nr_elements inst' = nr_elements inst → costs inst' = costs inst →
  same_members (sets inst') (sets inst) →
  solve h inst' = solve h inst.
Proof.
  intros Hn Hc Hss.
  assert (verify inst' = verify inst) as Hv.
  { apply eq_true_iff_eq. split; apply verify_same_members; try done.
    by apply same_members_sym. }
  unfold solve. rewrite Hv. destruct (verify inst) eqn:Hv'; [|done].
  rewrite !coverage_matrix_closed by done.
  unfold cost_vector, initial_sum. rewrite Hn, Hc, (Forall2_length _ _ _ Hss).
  assert (∀ e, coverage_row h (sets inst') e = coverage_row h (sets inst) e)
    as Hrow.
  { intros e. unfold coverage_row. apply list_eq. intros i.
    rewrite !list_lookup_imap.
    destruct (sets inst' !! i) as [s'|] eqn:Hi.
    - destruct (Forall2_lookup_l _ _ _ _ _ Hss Hi) as (s & -> & Hmem).
      simpl. unfold covers. by rewrite (bool_decide_ext _ _ (Hmem _)).
    - apply lookup_ge_None in Hi. rewrite (Forall2_length _ _ _ Hss) in Hi.
      apply lookup_ge_None in Hi. by rewrite Hi. }
  by rewrite (list_fmap_ext _ _ _ (fun _ e _ => Hrow e)).
Qed.

(** [C9]: listing an element several times in a set changes nothing:
    whatever the storage holds, [solve] has the same outcome (returned
    indices, message, or failed assertion) on an instance and on the
    instance with the duplicates removed from one of its sets. *)
Theorem C9_duplicates h inst k : solve h (dedup_set k inst) = solve h inst.
Proof.
  apply solve_same_members; try done. unfold dedup_set, same_members. simpl.
  apply Forall2_same_length_lookup. split; [by rewrite length_alter|].
  intros i s' s Hs' Hs r. rewrite list_lookup_alter in Hs'.
  case_decide; [subst|].
  - rewrite Hs in Hs'. injection Hs' as <-. apply elem_of_remove_dups.
  - by replace s' with s by congruence.
Qed.

(** The same with the duplicates removed from every set. *)
Corollary solve_dedup_sets h inst : solve h (dedup_sets inst) = solve h inst.
Proof.
  apply solve_same_members; try done. unfold dedup_sets, same_members. simpl.
  apply Forall2_fmap_l, Forall_Forall2_diag, Forall_forall.
  intros s _ r. apply elem_of_remove_dups.
Qed.

(** ** What the storage held *)

(** Entry [(e, i)] of the coverage matrix is 1 when set [i] contains [e];
    otherwise it is whatever the fresh storage held. *)
Lemma coverage_matrix_entry h inst e i s :
  verify inst = true → (e < nr_elements inst)%nat → sets inst !! i = Some s →
  mget (coverage_matrix h inst) e i =
  Some (if covers s e then Fin 1 else fresh_matrix h e i).
Proof.
  intros Hv He Hs. rewrite coverage_matrix_closed by done. unfold mget.
  rewrite list_lookup_fmap, lookup_seq_lt by done. simpl.
  unfold coverage_row. by rewrite list_lookup_imap, Hs.
Qed.


(** On zero-filled storage the matrix is the 0/1 coverage matrix and
    [sum] starts at zero. *)
Lemma coverage_matrix_zeroed inst e i s :
  verify inst = true → (e < nr_elements inst)%nat → sets inst !! i = Some s →
  mget (coverage_matrix zeroed inst) e i =
  Some (if covers s e then Fin 1 else Fin 0).
Proof. apply coverage_matrix_entry. Qed.

Lemma initial_sum_zeroed inst :
  initial_sum zeroed inst = replicate (length (sets inst)) (Fin 0).
Proof.
  unfold initial_sum, alloc_vector. generalize 0%nat.
  induction (length (sets inst)) as [|n IH]; intros k; [done|].
  simpl. f_equal. apply IH.
Qed.

(** [C2] fails on storage that is not zero-filled.  On the instance of
    [main], with storage whose fresh matrix coefficients hold 7, entry
    [(0, 1)] of the coverage matrix is 7 although set 1 does not contain
    element 0; and with storage whose fresh vector holds 48 in coefficient
    0, [sum] starts with 48 in component 0. *)
Theorem C2_uninitialised_storage :
  (∃ s, sets main_instance !! 1%nat = Some s ∧ covers s 0 = false) ∧
  mget (coverage_matrix (stale_matrix (Fin 7)) main_instance) 0 1 =
    Some (Fin 7) ∧
  initial_sum (stale_vector 0 (Fin 48)) main_instance =
    [Fin 48; Fin 0; Fin 0; Fin 0].
Proof.
  split; [by exists [1; 2; 3]%Z|]. split; reflexivity.
Qed.

(** [C5] fails on storage that is not zero-filled.  On the instance of
    [main], [solve] returns the indices 1 and 3 on zero-filled storage,
    and the indices 0, 1 and 3 on storage whose fresh vector holds 48 in
    coefficient 0. *)
Theorem C5_main_stale :
  solve zeroed main_instance = Return [] [1; 3]%nat ∧
  solve (stale_vector 0 (Fin 48)) main_instance = Return [] [0; 1; 3]%nat.
Proof. split; vm_compute; reflexivity. Qed.

(** [C8] fails on storage that is not zero-filled.  On the instance of
    [main], whose costs are positive, with storage whose fresh vector
    holds 5 in coefficient 1, the second iteration lowers component 0 of
    [sum] from 2 to -1 and component 1 from 5 to 2. *)
Theorem C8_slack_decreases :
  verify main_instance = true ∧
  solve_trace (stale_vector 1 (Fin 5)) main_instance =
    [[Fin 0; Fin 5; Fin 0; Fin 0]; [Fin 2; Fin 5; Fin 0; Fin 2];
     [Fin (-1); Fin 2; Fin 0; Fin 2]; [Fin (-1); Fin 2; Fin 0; Fin 2];
     [Fin (-1); Fin 2; Fin 0; Fin 2]; [Fin (-1); Fin 2; Fin 0; Fin 2]] ∧
  ¬ nondecreasing (solve_trace (stale_vector 1 (Fin 5)) main_instance).
Proof.
  split; [reflexivity|].
  assert (solve_trace (stale_vector 1 (Fin 5)) main_instance =
    [[Fin 0; Fin 5; Fin 0; Fin 0]; [Fin 2; Fin 5; Fin 0; Fin 2];
     [Fin (-1); Fin 2; Fin 0; Fin 2]; [Fin (-1); Fin 2; Fin 0; Fin 2];
     [Fin (-1); Fin 2; Fin 0; Fin 2]; [Fin (-1); Fin 2; Fin 0; Fin 2]])
    as Htr by (vm_compute; reflexivity).
  split; [exact Htr|]. rewrite Htr. intros Hmono.
  specialize (Hmono 1%nat _ _ eq_refl eq_refl).
  apply Forall2_cons_1 in Hmono as [Hle _]. by vm_compute in Hle.
Qed.

(** ** Monotonicity of the slack on zero-filled storage *)

Lemma sum_trace_head c rows sum : sum_trace c rows sum !! 0%nat = Some sum.
Proof. by destruct rows. Qed.

Lemma sum_trace_slots es : ∀ st,
  Forall (fun t => slot_sum t <= slot_cost t) st →
  nondecreasing
    (sum_trace (c_of st) ((fun e => row_of e st) <$> es) (sum_of st)).
Proof.
  induction es as [|e es IH]; intros st Hle k u v Hu Hv.
  - by destruct k.
  - rewrite fmap_cons in Hu, Hv. cbn [sum_trace] in Hu, Hv.
    destruct (grow_element_slots e st Hle)
      as [[_ Hstep]|(y & Hy0 & Hall & _ & Hstep)];
      rewrite Hstep in Hu, Hv; [by destruct k|].
    set (st1 := grow_slot y e <$> st) in *.
    assert (Forall (fun t => slot_sum t <= slot_cost t) st1) as Hle1.
    { unfold st1. apply Forall_fmap. rewrite Forall_forall in Hle, Hall.
      apply Forall_forall. intros t Ht. apply grow_slot_feasible; auto. }
    assert ((fun e0 => row_of e0 st) <$> es =
            (fun e0 => row_of e0 st1) <$> es) as Hrows.
    { apply list_fmap_ext. intros _ e' _. unfold st1.
      by rewrite row_of_grow. }
    rewrite Hrows in Hu, Hv.
    replace (c_of st) with (c_of st1) in Hu, Hv by apply c_of_grow.
    destruct k as [|k].
    + simpl in Hu, Hv. injection Hu as <-.
      rewrite sum_trace_head in Hv. injection Hv as <-.
      unfold vec_le, sum_of, st1. rewrite <- list_fmap_compose.
      apply Forall2_fmap, Forall_Forall2_diag, Forall_forall.
      intros t _. simpl. apply dle_fin.
      destruct (covers (slot_set t) e); simpl; lra.
    + simpl in Hu, Hv. by apply (IH st1 Hle1 k).
Qed.

(** On zero-filled storage and with costs that are integers between 0
    and 2^53 no component of [sum] ever decreases. *)
Lemma solve_trace_zeroed inst :
  verify inst = true → Forall integer_cost (costs inst) →
  nondecreasing (solve_trace zeroed inst).
Proof.
  intros Hv Hc%integer_costs_nonneg. unfold solve_trace.
  rewrite coverage_matrix_closed, c_of_slots_of, sum_of_slots_of by done.
  rewrite (list_fmap_ext (coverage_row zeroed (sets inst))
             (fun e => row_of e (slots_of inst))
             (seq 0 (nr_elements inst)))
    by (intros; by apply row_of_slots_of).
  by apply sum_trace_slots, slots_of_feasible.
Qed.

(** ** Elements that no set contains *)

Lemma first_uncovered_Some inst e :
  first_uncovered inst = Some e ↔
  (e < nr_elements inst)%nat ∧ uncovered inst e ∧
  ∀ e', (e' < e)%nat → ¬ uncovered inst e'.
Proof.
  unfold first_uncovered. split.
  - destruct (list_find _ _) as [[i x]|] eqn:Hf; [|done].
    intros [= <-].
    apply list_find_Some in Hf as ([-> Hi]%lookup_seq & Hu & Hmin).
    simpl in *. repeat split; [done..|]. intros e' He'.
    apply (Hmin e' e'); [|done]. apply lookup_seq. split; [done|lia].
  - intros (He & Hu & Hmin).
    assert (list_find (uncovered inst) (seq 0 (nr_elements inst)) =
            Some (e, e)) as ->; [|done].
    apply list_find_Some. split; [by apply lookup_seq|]. split; [done|].
    intros j y [-> _]%lookup_seq Hj. by apply Hmin.
Qed.

Lemma coverage_row_uncovered inst e :
  uncovered inst e →
  Forall (fun a => a = Fin 0) (coverage_row zeroed (sets inst) e).
Proof.
  intros Hu. apply Forall_lookup. intros i a. unfold coverage_row.
  rewrite list_lookup_imap.
  destruct (sets inst !! i) as [s|] eqn:Hs; [simpl|done]. intros [= <-].
  unfold uncovered in Hu. rewrite Forall_forall in Hu.
  rewrite (Hu s); [done|]. eapply list_elem_of_lookup_2, Hs.
Qed.

Lemma max_possible_incr_zero_row row : ∀ acc gap,
  Forall (fun a => a = Fin 0) row → max_possible_incr acc row gap = acc.
Proof.
  induction row as [|a row IH]; intros acc [|g gap] Hz; try done.
  apply Forall_cons in Hz as [-> Hz]. cbn [max_possible_incr].
  change (dlt (Fin 0) EPSILON) with true. cbn match. by apply IH.
Qed.

Lemma grow_element_zero_row c sum row :
  Forall (fun a => a = Fin 0) row → grow_element c sum row = None.
Proof.
  intros Hz. unfold grow_element.
  by rewrite max_possible_incr_zero_row.
Qed.

Lemma dual_growth_zero_row c rows : ∀ sum,
  Exists (Forall (fun a => a = Fin 0)) rows → dual_growth c rows sum = None.
Proof.
  induction rows as [|row rows IH]; intros sum Hex.
  - by apply Exists_nil in Hex.
  - cbn [dual_growth]. destruct (grow_element c sum row) as [sum'|] eqn:Hg;
      [|done].
    apply Exists_cons in Hex as [Hz|Hex]; [|by apply IH].
    by rewrite grow_element_zero_row in Hg.
Qed.

(** With finite costs the loop reaches the first row of zeros and stops
    there. *)
Lemma sum_trace_stops es : ∀ st row0 rest,
  Forall (fun t => slot_sum t <= slot_cost t) st →
  (∀ e, e ∈ es → Exists (fun t => covers (slot_set t) e = true) st) →
  Forall (fun a => a = Fin 0) row0 →
  length (sum_trace (c_of st)
            (((fun e => row_of e st) <$> es) ++ row0 :: rest) (sum_of st)) =
  S (length es).
Proof.
  induction es as [|e es IH]; intros st row0 rest Hle Hcov Hz.
  - simpl. by rewrite grow_element_zero_row.
  - rewrite fmap_cons. cbn [app sum_trace length].
    destruct (grow_element_slots e st Hle)
      as [[Hnone _]|(y & Hy0 & Hall & _ & Hstep)].
    { specialize (Hcov e (list_elem_of_here _ _)).
      apply Exists_exists in Hcov as (t & Ht & Hc).
      rewrite Forall_forall in Hnone. specialize (Hnone t Ht). congruence. }
    rewrite Hstep. f_equal.
    set (st1 := grow_slot y e <$> st) in *.
    assert ((fun e0 => row_of e0 st) <$> es =
            (fun e0 => row_of e0 st1) <$> es) as ->.
    { apply list_fmap_ext. intros _ e' _. unfold st1.
      by rewrite row_of_grow. }
    replace (c_of st) with (c_of st1) by apply c_of_grow.
    apply IH; [| |done].
    + unfold st1. apply Forall_fmap. rewrite Forall_forall in Hle, Hall.
      apply Forall_forall. intros t Ht. apply grow_slot_feasible; auto.
    + intros e' He'. unfold st1. apply Exists_fmap.
      apply (Hcov e'). by apply list_elem_of_further.
Qed.

(** [C3], with the outcome the program has, for zero-filled storage: on
    every validated instance in which some element is contained in no
    set, [solve] leaves the loop early, writes [Infeasible!] to
    [std::cerr] and returns the empty sequence, in which the element is
    not named.  When the costs are integers between 0 and 2^53 the loop
    is left at the first such element [e]: exactly the iterations [0] to
    [e] are entered. *)
Theorem C3_infeasible inst e :
  verify inst = true → first_uncovered inst = Some e →
  solve zeroed inst = Return ["Infeasible!"%string] [] ∧
  (Forall integer_cost (costs inst) →
   length (solve_trace zeroed inst) = S e).
Proof.
  intros Hv (He & Hu & Hmin)%first_uncovered_Some. split.
  - unfold solve. rewrite Hv, coverage_matrix_closed by done.
    rewrite dual_growth_zero_row; [done|].
    apply Exists_fmap, Exists_exists. exists e.
    split; [apply elem_of_seq; lia|]. by apply coverage_row_uncovered.
  - intros Hc%integer_costs_nonneg. unfold solve_trace.
    rewrite coverage_matrix_closed, c_of_slots_of, sum_of_slots_of by done.
    replace (nr_elements inst) with (e + S (nr_elements inst - S e))%nat
      by lia.
    rewrite seq_app, fmap_app. cbn [seq]. rewrite fmap_cons.
    rewrite (list_fmap_ext (coverage_row zeroed (sets inst))
               (fun e => row_of e (slots_of inst)) (seq 0 e))
      by (intros; by apply row_of_slots_of).
    rewrite sum_trace_stops; [by rewrite length_seq| | |].
    + by apply slots_of_feasible.
    + intros e' [_ He']%elem_of_seq. apply slots_of_covered; [done|].
      assert (¬ uncovered inst e') as Hne by (apply Hmin; lia).
      unfold uncovered in Hne. apply not_Forall_Exists in Hne; [|apply _].
      apply Exists_exists in Hne as (s & Hs & Hcs).
      exists s. split; [done|].
      simpl in Hcs. by apply not_false_iff_true.
    + by apply coverage_row_uncovered.
Qed.

(** ** The selection *)


(** A feasible instance whose costs are integers between 0 and 2^53 is
    processed to the end on zero-filled storage. *)
Lemma dual_growth_completes inst :
  verify inst = true → Forall integer_cost (costs inst) → feasible inst →
  is_Some (dual_growth (cost_vector inst) (coverage_matrix zeroed inst)
             (initial_sum zeroed inst)).
Proof.
  intros Hv Hc%integer_costs_nonneg Hf.
  destruct (solve_zeroed inst Hv Hc Hf) as (ys & _ & _ & Hsolve & _).
  unfold solve in Hsolve. rewrite Hv in Hsolve.
  destruct (dual_growth _ _ _); [done|discriminate].
Qed.

(** ** Deciding feasibility and covers *)

Lemma feasibleb_spec inst : feasibleb inst = true ↔ feasible inst.
Proof.
  unfold feasibleb, feasible. rewrite forallb_forall. split.
  - intros H e He.
    assert (In e (seq 0 (nr_elements inst))) as Hin
      by (apply in_seq; lia).
    apply H, existsb_exists in Hin as (s & Hs & Hc).
    exists s. split; [by apply list_elem_of_In|done].
  - intros H e [_ He]%in_seq. apply existsb_exists.
    destruct (H e) as (s & Hs & Hc); [lia|].
    exists s. split; [by apply list_elem_of_In|done].
Qed.

Lemma nonneg_costs_spec cs :
  forallb nonneg_costb cs = true → Forall nonneg_cost cs.
Proof.
  rewrite forallb_forall. intros H. apply Forall_forall. intros d Hd.
  apply list_elem_of_In, H in Hd. destruct d; try done.
  by apply Qle_bool_iff.
Qed.

Lemma is_coverb_spec inst sel :
  verify inst = true → is_coverb inst sel = true → is_cover inst sel.
Proof.
  intros [_ Hr]%verify_spec [Hvalid Hall]%andb_true_iff.
  rewrite forallb_forall in Hvalid, Hall. split.
  - intros i Hi. apply list_elem_of_In, Hvalid in Hi.
    by apply Nat.ltb_lt in Hi.
  - intros r. split.
    + intros Hrange.
      assert (In (Z.to_nat r) (seq 0 (nr_elements inst))) as Hin
        by (apply in_seq; lia).
      apply Hall, existsb_exists in Hin as (i & Hi & Hc).
      pose proof (Hvalid i Hi) as Hlt. apply Nat.ltb_lt in Hlt.
      destruct (lookup_lt_is_Some_2 _ _ Hlt) as [s Hs].
      rewrite Hs in Hc. simpl in Hc. apply bool_decide_eq_true in Hc.
      rewrite Z2Nat.id in Hc by lia.
      exists i, s. split; [by apply list_elem_of_In|done].
    + intros (i & s & _ & Hs & Hin). apply (Hr s r); [|done].
      eapply list_elem_of_lookup_2, Hs.
Qed.

Lemma qcost_ge_member inst sel i :
  Forall nonneg_cost (costs inst) →
  (∀ j, j ∈ sel → (j < length (costs inst))%nat) → i ∈ sel →
  qval (default NaN (costs inst !! i)) <= qcost inst sel.
Proof.
  intros Hc. unfold qcost.
  assert (∀ j, (j < length (costs inst))%nat →
               0 <= qval (default NaN (costs inst !! j))) as Hpos.
  { intros j Hj. destruct (lookup_lt_is_Some_2 _ _ Hj) as [d Hd].
    rewrite Hd. simpl. rewrite Forall_forall in Hc.
    apply nonneg_cost_fin, Hc. eapply list_elem_of_lookup_2, Hd. }
  induction sel as [|j sel IH]; intros Hsel Hi.
  - by apply elem_of_nil in Hi.
  - rewrite fmap_cons, Qsum_cons.
    assert (0 <= Qsum ((fun i => qval (default NaN (costs inst !! i)))
                         <$> sel)) as Hrest.
    { clear IH Hi. induction sel as [|k sel IH']; [simpl; lra|].
      rewrite fmap_cons, Qsum_cons.
      assert (0 <= qval (default NaN (costs inst !! k)))
        by (apply Hpos, Hsel, list_elem_of_further, list_elem_of_here).
      assert (0 <= Qsum ((fun i => qval (default NaN (costs inst !! i)))
                           <$> sel)); [|lra].
      apply IH'. intros k' [->|Hk']%elem_of_cons; apply Hsel.
      - apply list_elem_of_here.
      - by do 2 apply list_elem_of_further. }
    apply elem_of_cons in Hi as [->|Hi]; [lra|].
    assert (0 <= qval (default NaN (costs inst !! j)))
      by apply Hpos, Hsel, list_elem_of_here.
    specialize (IH (fun k Hk => Hsel k (list_elem_of_further _ _ _ Hk)) Hi).
    lra.
Qed.

(** ** Where the program and its specification part *)

(** [C1] fails on storage that is not zero-filled.  The instance of
    [main] is validated and feasible, and its costs are positive
    integers.  On storage whose fresh vector holds 10 in coefficient 2,
    [sum] goes from (0, 0, 10, 0) to (2, 0, 10, 2) and (4, 2, 10, 2); the
    iteration for element 3 then applies the increment -7 and leaves
    (4, -5, 3, 2).  [solve] reports no infeasibility and returns the sets
    2 and 3, which are [{3, 4}] and [{4, 0}]: elements 1 and 2 are in
    neither. *)
Theorem C1_cover_lost :
  verify main_instance = true ∧ feasible main_instance ∧
  solve_trace (stale_vector 2 (Fin 10)) main_instance =
    [[Fin 0; Fin 0; Fin 10; Fin 0]; [Fin 2; Fin 0; Fin 10; Fin 2];
     [Fin 4; Fin 2; Fin 10; Fin 2]; [Fin 4; Fin 2; Fin 10; Fin 2];
     [Fin 4; Fin (-5); Fin 3; Fin 2]; [Fin 4; Fin (-5); Fin 3; Fin 2]] ∧
  solve (stale_vector 2 (Fin 10)) main_instance = Return [] [2; 3]%nat ∧
  ¬ is_cover main_instance [2; 3]%nat.
Proof.
  split; [reflexivity|]. split; [by apply feasibleb_spec|].
  split; [vm_compute; reflexivity|]. split; [vm_compute; reflexivity|].
  intros [_ Hcov].
  destruct (proj1 (Hcov 1%Z)) as (i & s & Hi & Hs & Hin); [simpl; lia|].
  apply elem_of_cons in Hi as [->|Hi].
  - injection Hs as <-. set_solver.
  - apply list_elem_of_singleton in Hi as ->. injection Hs as <-. set_solver.
Qed.

(** [C4] does not hold for all non-negative costs, because of the
    tolerance of the selection: the instance is validated and feasible
    with positive costs, every element is in two sets, set 0 alone is a
    cover of least cost (cost 1), and on zero-filled storage [solve]
    returns all three sets, of total cost 2.00005, which exceeds 2 * 1. *)
Lemma C4_counterexample :
  verify cheap_set_instance = true ∧
  Forall nonneg_cost (costs cheap_set_instance) ∧
  feasible cheap_set_instance ∧
  max_frequency cheap_set_instance = 2%nat ∧
  min_cost_cover cheap_set_instance [0%nat] ∧
  solve zeroed cheap_set_instance = Return [] [0; 1; 2]%nat ∧
  dle (total_cost cheap_set_instance [0; 1; 2]%nat)
      (dmul (dnat (max_frequency cheap_set_instance))
            (total_cost cheap_set_instance [0%nat])) = false.
Proof.
  assert (Forall nonneg_cost (costs cheap_set_instance)) as Hc
    by (by apply nonneg_costs_spec).
  split; [reflexivity|]. split; [done|]. split; [by apply feasibleb_spec|].
  split; [reflexivity|]. split; [|split; [vm_compute|]; reflexivity].
  assert (is_cover cheap_set_instance [0%nat]) as Hcov0.
  { split.
    - intros i Hi. apply list_elem_of_singleton in Hi as ->. simpl. lia.
    - intros r. split.
      + intros Hr. exists 0%nat, [0; 1]%Z. split; [apply list_elem_of_here|].
        split; [done|]. simpl in Hr.
        assert (r = 0 ∨ r = 1)%Z as [-> | ->] by lia.
        * apply list_elem_of_here.
        * apply list_elem_of_further, list_elem_of_here.
      + intros (i & s & Hi & Hs & Hin). simpl.
        apply list_elem_of_singleton in Hi as ->. injection Hs as <-.
        apply elem_of_cons in Hin as [->|Hin]; [lia|].
        apply list_elem_of_singleton in Hin as ->. lia. }
  split; [done|]. intros o [Hvalid Hcov].
  rewrite !total_cost_fin; try done.
  2: { intros i Hi. apply list_elem_of_singleton in Hi as ->. simpl. lia. }
  apply dle_fin. change (qcost cheap_set_instance [0%nat]) with (1 + 0).
  destruct (proj1 (Hcov 0%Z)) as (i & s & Hi & Hs & Hin); [simpl; lia|].
  pose proof (qcost_ge_member cheap_set_instance o i Hc Hvalid Hi) as Hge.
  destruct i as [|[|[|i]]]; simpl in Hs; try done; simpl in Hge; try lra.
  injection Hs as <-. by apply list_elem_of_singleton in Hin.
Qed.

(** [C3] does not hold with an error that names the element: two
    validated instances whose first uncovered elements differ (0 and 1)
    give the same outcome, a message and the empty sequence of indices;
    so a sequence is returned, and nothing computed from the outcome is
    the uncovered element in both cases. *)
Lemma C3_counterexample :
  verify uncovered_0_instance = true ∧ verify uncovered_1_instance = true ∧
  first_uncovered uncovered_0_instance = Some 0%nat ∧
  first_uncovered uncovered_1_instance = Some 1%nat ∧
  solve zeroed uncovered_0_instance = Return ["Infeasible!"%string] [] ∧
  solve zeroed uncovered_1_instance = Return ["Infeasible!"%string] [] ∧
  ¬ ∃ carried : outcome → option nat,
      carried (solve zeroed uncovered_0_instance) =
        first_uncovered uncovered_0_instance ∧
      carried (solve zeroed uncovered_1_instance) =
        first_uncovered uncovered_1_instance.
Proof.
  assert (solve zeroed uncovered_0_instance =
          Return ["Infeasible!"%string] []) as H0 by (vm_compute; reflexivity).
  assert (solve zeroed uncovered_1_instance =
          Return ["Infeasible!"%string] []) as H1 by (vm_compute; reflexivity).
  assert (first_uncovered uncovered_0_instance = Some 0%nat) as F0
    by (vm_compute; reflexivity).
  assert (first_uncovered uncovered_1_instance = Some 1%nat) as F1
    by (vm_compute; reflexivity).
  repeat split; try done.
  intros (carried & C0 & C1). rewrite H0, F0 in C0. rewrite H1, F1 in C1.
  congruence.
Qed.

(** ** The theorems at concrete instances *)

(** [C3] on an instance that leaves element 1 out and has the single
    cost 1. *)
Lemma C3_infeasible_witness :
  verify uncovered_1_instance = true ∧
  first_uncovered uncovered_1_instance = Some 1%nat ∧
  Forall integer_cost (costs uncovered_1_instance) ∧
  solve zeroed uncovered_1_instance = Return ["Infeasible!"%string] [] ∧
  length (solve_trace zeroed uncovered_1_instance) = 2%nat.
Proof.
  assert (verify uncovered_1_instance = true) as Hv by reflexivity.
  assert (first_uncovered uncovered_1_instance = Some 1%nat) as Hu
    by (vm_compute; reflexivity).
  assert (Forall integer_cost (costs uncovered_1_instance)) as Hc
    by (apply integer_costs_spec; reflexivity).
  split; [exact Hv|]. split; [exact Hu|]. split; [exact Hc|].
  destruct (C3_infeasible uncovered_1_instance 1 Hv Hu) as [Hout Hlen].
  split; [exact Hout|]. exact (Hlen Hc).
Defined.

(** [C4] on the instance of [main], against the cover made of the sets
    1 and 3. *)
Lemma C4_approximation_witness :
  verify main_instance = true ∧ Forall integer_cost (costs main_instance) ∧
  is_cover main_instance [1; 3]%nat ∧
  ∃ sel, solve zeroed main_instance = Return [] sel ∧
    dle (total_cost main_instance sel)
        (dmul (dnat (max_frequency main_instance))
           (total_cost main_instance [1; 3]%nat)) = true.
Proof.
  assert (verify main_instance = true) as Hv by reflexivity.
  assert (Forall integer_cost (costs main_instance)) as Hc
    by (apply integer_costs_spec; reflexivity).
  assert (is_cover main_instance [1; 3]%nat) as Hopt
    by (apply is_coverb_spec; reflexivity).
  split; [exact Hv|]. split; [exact Hc|]. split; [exact Hopt|].
  exact (C4_approximation main_instance [1; 3]%nat Hv Hc Hopt).
Defined.


(** * Further properties of the program *)

(** ** What [solve] returns on any storage *)

Lemma tight_finite cs ss :
  tight cs ss = true → ∃ qc qs, cs = Fin qc ∧ ss = Fin qs.
Proof. destruct cs, ss; try done. eauto. Qed.

(** [X1]: whatever the storage holds, every index that [solve] returns
    is the index of a set of the instance, and the cost of that set is
    finite (neither infinite nor NaN); so at most [nr_sets] indices are
    returned. *)
Theorem X1_returned_indices h inst cerr sel :
  solve h inst = Return cerr sel →
  (∀ i, i ∈ sel → (i < length (sets inst))%nat ∧
                  ∃ q, costs inst !! i = Some (Fin q)) ∧
  (length sel <= length (sets inst))%nat.
Proof.
  unfold solve. destruct (verify inst) eqn:Hv; [|done].
  destruct (dual_growth _ _ _) as [sum|]; intros [= <- <-].
  - assert (∀ i, i ∈ set_cover_from 0 (cost_vector inst) sum →
              (i < length (sets inst))%nat ∧
              ∃ q, costs inst !! i = Some (Fin q)) as Hin.
    { intros i (_ & cs & ss & Hcs & _ & Ht)%elem_of_set_cover_from.
      rewrite Nat.sub_0_r in Hcs. unfold cost_vector in Hcs.
      rewrite <- (length_costs inst Hv), firstn_all in Hcs.
      split.
      - rewrite <- (length_costs inst Hv). by eapply lookup_lt_Some.
      - apply tight_finite in Ht as (qc & _ & -> & _). eauto. }
    split; [done|].
    rewrite <- (length_seq (length (sets inst)) 0).
    apply submseteq_length, NoDup_submseteq; [apply set_cover_from_NoDup|].
    intros i Hi. apply elem_of_seq. apply Hin in Hi. lia.
  - split; [by intros i ?%elem_of_nil|simpl; lia].
Qed.

(** ** Instances built through [construct] and [add_set] *)

(** [X2]: an instance built by [construct(n)] followed by calls of
    [add_set] has [n] elements, holds the sets and the costs in the order
    of the calls, and passes [verify] exactly when every element index of
    every added set lies in [[0, n)]: the assertion on the sizes can not
    fail on it. *)
Theorem X2_build n (l : list (double * list Z)) :
  nr_elements (build n l) = n ∧ sets (build n l) = l.*2 ∧
  costs (build n l) = l.*1 ∧
  (verify (build n l) = true ↔
   Forall (fun p => Forall (fun r => 0 <= r < Z.of_nat n)%Z p.2) l).
Proof.
  destruct (foldl_add_set l (construct n)) as (Hn & Hs & Hc).
  fold (build n l) in Hn, Hs, Hc. simpl in Hn, Hs, Hc.
  repeat split; try done.
  - intros [_ Hr]%verify_spec. rewrite Hn, Hs in Hr.
    apply Forall_forall. intros [c s] Hp. apply Forall_forall. intros r Hin.
    apply (Hr s r); [|done]. apply list_elem_of_fmap. by exists (c, s).
  - intros Hall. apply verify_spec. rewrite Hn, Hs, Hc.
    split; [by rewrite !length_fmap|].
    intros s r [[c s'] [-> Hp]]%list_elem_of_fmap Hr.
    rewrite Forall_forall in Hall. specialize (Hall _ Hp).
    rewrite Forall_forall in Hall. by apply Hall.
Qed.

(** ** Degenerate instances *)

(** [X3]: on an instance without sets [solve] does not depend on the
    storage: with no elements it returns the empty cover, and with at
    least one element it reports [Infeasible!]. *)
Theorem X3_no_sets h n :
  solve h (construct n) =
  match n with
  | O => Return [] []
  | S _ => Return ["Infeasible!"%string] []
  end.
Proof. by destruct n. Qed.


(** ** Which storage matters *)

(** [X5]: the outcome of [solve] depends on the storage only through the
    coefficients it reads before writing them: two heaps that agree on
    the matrix entries [(e, i)] where set [i] does not contain [e] and on
    the first [nr_sets] vector coefficients give the same outcome. *)
Theorem X5_heap_agree inst h h' :
  heap_agree inst h h' → solve h inst = solve h' inst.
Proof.
  intros [HA Hsum]. unfold solve. destruct (verify inst) eqn:Hv; [|done].
  rewrite !coverage_matrix_closed by done.
  assert (initial_sum h inst = initial_sum h' inst) as ->.
  { unfold initial_sum, alloc_vector. apply list_fmap_ext.
    intros k i [-> Hi]%lookup_seq. apply Hsum. simpl. lia. }
  assert (coverage_row h (sets inst) <$> seq 0 (nr_elements inst) =
          coverage_row h' (sets inst) <$> seq 0 (nr_elements inst)) as ->;
    [|done].
  apply list_fmap_ext. intros k e [-> He]%lookup_seq. simpl.
  unfold coverage_row. apply imap_ext. intros i s Hs. simpl.
  destruct (covers s k) eqn:Hc; [done|]. by apply (HA k i s).
Qed.

(** ** The order of the elements inside a set *)

(** [X6]: the order in which a set lists its elements plays no part:
    whatever the storage holds, two instances with the same element
    count and costs whose sets are, position by position, permutations of
    each other have the same outcome. *)
Theorem X6_element_order h inst' inst :
  nr_elements inst' = nr_elements inst → costs inst' = costs inst →
  Forall2 Permutation (sets inst') (sets inst) →
  solve h inst' = solve h inst.
Proof.
  intros Hn Hc Hp. apply solve_same_members; try done.
  eapply Forall2_impl; [exact Hp|]. intros s' s Hs r. by rewrite Hs.
Qed.

(** ** Which sets are returned on zero-filled storage *)

Lemma load_nonneg es : ∀ ys s,
  Forall (fun y => 0 <= y) ys → 0 <= load es ys s.
Proof.
  unfold load. induction es as [|e es IH]; intros [|y ys] s Hys;
    try (simpl; lra).
  apply Forall_cons in Hys as [Hy Hys]. cbn [zip_with].
  rewrite Qsum_cons. specialize (IH ys s Hys).
  destruct (covers s e); simpl bit; lra.
Qed.

(** [X7]: on zero-filled storage, for a validated feasible instance whose
    costs are integers between 0 and 2^53, every set of cost 0 is
    returned, whether it is needed for the cover or not. *)
Theorem X7_free_sets inst i :
  verify inst = true → Forall integer_cost (costs inst) → feasible inst →
  costs inst !! i = Some (Fin 0) →
  ∃ sel, solve zeroed inst = Return [] sel ∧ i ∈ sel.
Proof.
  intros Hv Hc%integer_costs_nonneg Hf Hi.
  destruct (solve_zeroed inst Hv Hc Hf) as (ys & _ & Hys & Hsolve & Hfin & _).
  set (final := run (seq 0 (nr_elements inst)) ys (slots_of inst)) in *.
  eexists. split; [exact Hsolve|].
  destruct (lookup_lt_is_Some_2 final i) as [t Ht].
  { unfold final. rewrite length_run, length_slots_of by done.
    rewrite <- (length_costs inst Hv). by eapply lookup_lt_Some. }
  destruct (final_lookup _ _ _ _ Hv Ht) as (d & _ & Hd & Hcd & Hsum).
  rewrite Hi in Hd. injection Hd as <-. simpl in Hcd.
  pose proof (load_nonneg (seq 0 (nr_elements inst)) ys (slot_set t) Hys).
  rewrite Forall_forall in Hfin.
  assert (slot_sum t <= slot_cost t) as Hle
    by (eapply Hfin, list_elem_of_lookup_2, Ht).
  apply elem_of_set_cover_from. split; [lia|]. rewrite Nat.sub_0_r.
  exists (Fin (slot_cost t)), (Fin (slot_sum t)).
  unfold c_of, sum_of. rewrite !list_lookup_fmap, Ht.
  repeat split; try done. apply tight_exact.
  rewrite Hcd in Hle |- *. lra.
Qed.

(** [X8]: on zero-filled storage, for a validated feasible instance whose
    costs are integers between 0 and 2^53, a set that is the only one to
    contain some element is returned. *)
Theorem X8_sole_container inst e i s :
  verify inst = true → Forall integer_cost (costs inst) → feasible inst →
  (e < nr_elements inst)%nat → sets inst !! i = Some s →
  (∀ j s', sets inst !! j = Some s' → covers s' e = true → j = i) →
  ∃ sel, solve zeroed inst = Return [] sel ∧ i ∈ sel.
Proof.
  intros Hv Hc%integer_costs_nonneg Hf He Hs Hsole.
  destruct (solve_zeroed inst Hv Hc Hf)
    as (ys & _ & _ & Hsolve & _ & Htight & _).
  set (final := run (seq 0 (nr_elements inst)) ys (slots_of inst)) in *.
  eexists. split; [exact Hsolve|].
  apply Htight, Exists_exists in He as (t & Ht & Hcov & Heq).
  apply list_elem_of_lookup_1 in Ht as [j Hj].
  destruct (final_lookup _ _ _ _ Hv Hj) as (d & Hsj & _).
  assert (j = i) as -> by (by eapply Hsole).
  apply elem_of_set_cover_from. split; [lia|]. rewrite Nat.sub_0_r.
  exists (Fin (slot_cost t)), (Fin (slot_sum t)).
  unfold c_of, sum_of. rewrite !list_lookup_fmap. fold final. rewrite Hj.
  repeat split; try done. by apply tight_exact.
Qed.

(** ** Dual feasibility *)

Lemma sum_trace_bounds es : ∀ st u,
  Forall (fun t => 0 <= slot_sum t <= slot_cost t) st →
  u ∈ sum_trace (c_of st) ((fun e => row_of e st) <$> es) (sum_of st) →
  ∃ st', u = sum_of st' ∧ c_of st' = c_of st ∧
         Forall (fun t => 0 <= slot_sum t <= slot_cost t) st'.
Proof.
  induction es as [|e es IH]; intros st u Hinv Hu.
  - apply list_elem_of_singleton in Hu as ->. by exists st.
  - rewrite fmap_cons in Hu. cbn [sum_trace] in Hu.
    apply elem_of_cons in Hu as [->|Hu]; [by exists st|].
    assert (Forall (fun t => slot_sum t <= slot_cost t) st) as Hle
      by (eapply Forall_impl; [exact Hinv|]; by intros t [_ ?]).
    destruct (grow_element_slots e st Hle)
      as [[_ Hstep]|(y & Hy0 & Hall & _ & Hstep)];
      rewrite Hstep in Hu; [by apply elem_of_nil in Hu|].
    set (st1 := grow_slot y e <$> st) in *.
    assert ((fun e0 => row_of e0 st) <$> es =
            (fun e0 => row_of e0 st1) <$> es) as Hrows.
    { apply list_fmap_ext. intros _ e' _. unfold st1.
      by rewrite row_of_grow. }
    rewrite Hrows in Hu.
    replace (c_of st) with (c_of st1) in Hu by apply c_of_grow.
    destruct (IH st1 u) as (st' & -> & Hc' & Hinv'); [|done|].
    + unfold st1. apply Forall_fmap. rewrite Forall_forall in Hinv, Hall.
      apply Forall_forall. intros t Ht. destruct (Hinv t Ht) as [H0 H1].
      split.
      * pose proof (grow_slot_le y e t Hy0). lra.
      * apply grow_slot_feasible; auto.
    + exists st'. repeat split; try done. rewrite Hc'. apply c_of_grow.
Qed.

(** [X9]: on zero-filled storage, for a validated instance whose costs
    are integers between 0 and 2^53, the invariant written beside the
    declaration of [sum] holds at every iteration, and [sum] stays within
    the numbers on which the arithmetic of the loop is exact: each
    component of [sum] is an integer between 0 and the cost of its set. *)
Theorem X9_dual_feasible inst u :
  verify inst = true → Forall integer_cost (costs inst) →
  u ∈ solve_trace zeroed inst →
  vec_le (initial_sum zeroed inst) u ∧ vec_le u (cost_vector inst) ∧
  Forall integral u.
Proof.
  intros Hv Hi Hu. pose proof (integer_costs_nonneg _ Hi) as Hc.
  assert (Forall integral u) as Hint.
  { unfold solve_trace in Hu. eapply sum_trace_integral; [| | |exact Hu].
    - by apply cost_vector_integral.
    - apply initial_sum_integral.
    - rewrite coverage_matrix_closed by done. apply coverage_rows_bit01. }
  enough (vec_le (initial_sum zeroed inst) u ∧ vec_le u (cost_vector inst))
    as [? ?] by done.
  unfold solve_trace in Hu.
  rewrite coverage_matrix_closed in Hu by done.
  rewrite c_of_slots_of, sum_of_slots_of by done.
  rewrite c_of_slots_of, sum_of_slots_of in Hu by done.
  rewrite (list_fmap_ext (coverage_row zeroed (sets inst))
             (fun e => row_of e (slots_of inst))
             (seq 0 (nr_elements inst))) in Hu
    by (intros; by apply row_of_slots_of).
  apply sum_trace_bounds in Hu as (st' & -> & Hc' & Hinv).
  - assert (length st' = length (slots_of inst)) as Hlen.
    { apply (f_equal length) in Hc'. unfold c_of in Hc'.
      by rewrite !length_fmap in Hc'. }
    split.
    + unfold vec_le, sum_of. apply Forall2_fmap.
      apply Forall2_same_length_lookup. split; [done|].
      intros i t0 t Ht0 Ht. apply slots_of_lookup in Ht0 as (_ & _ & _ & _ & ->).
      apply dle_fin. rewrite Forall_forall in Hinv.
      eapply Hinv, list_elem_of_lookup_2, Ht.
    + rewrite <- Hc'. unfold vec_le, sum_of, c_of.
      apply Forall2_fmap, Forall_Forall2_diag.
      eapply Forall_impl; [exact Hinv|]. intros t [_ Ht]. simpl.
      by apply dle_fin.
  - apply Forall_lookup. intros i t Ht.
    destruct (slots_of_lookup _ _ _ Ht) as (d & _ & Hd & -> & ->).
    rewrite Forall_forall in Hc. split; [lra|].
    apply nonneg_cost_fin, Hc. eapply list_elem_of_lookup_2, Hd.
Qed.

(** ** The dual objective as a lower bound *)

Lemma dsum_fin ys : dsum (Fin <$> ys) = Fin (Qsum ys).
Proof.
  induction ys as [|y ys IH]; [done|].
  rewrite fmap_cons. unfold dsum in *. cbn [foldr]. by rewrite IH.
Qed.

(** One iteration, with the value of [max_possible_incr] made explicit. *)
Lemma grow_element_incr e st :
  Forall (fun t => slot_sum t <= slot_cost t) st →
  Exists (fun t => covers (slot_set t) e = true) st →
  ∃ y, 0 <= y ∧
    Forall (fun t => covers (slot_set t) e = true →
                     y <= slot_cost t - slot_sum t) st ∧
    max_possible_incr infinity (row_of e st)
      (zip_with dsub (c_of st) (sum_of st)) = Fin y ∧
    grow_element (c_of st) (sum_of st) (row_of e st) =
    Some (sum_of (grow_slot y e <$> st)).
Proof.
  intros Hle Hcov. unfold grow_element.
  pose proof (max_possible_incr_slots e st PInf I Hle) as H.
  unfold infinity.
  destruct (max_possible_incr _ _ _) as [y| | |]; try done.
  - exists y. destruct H as (Hy & _ & Hall & _). repeat split; try done.
    cbn [deq]. f_equal. unfold sum_of, row_of.
    rewrite zip_with_fmap_l, zip_with_fmap_r, zip_with_diag.
    rewrite <- list_fmap_compose. apply list_fmap_ext. intros _ t _.
    simpl. by destruct (covers (slot_set t) e).
  - destruct H as [_ Hnone].
    apply Exists_exists in Hcov as (t & Ht & Hc).
    rewrite Forall_forall in Hnone. specialize (Hnone t Ht). congruence.
Qed.

(** The loop over covered elements, with the increments made explicit. *)
Lemma incr_trace_slots es : ∀ st,
  Forall (fun t => slot_sum t <= slot_cost t) st →
  (∀ e, e ∈ es → Exists (fun t => covers (slot_set t) e = true) st) →
  ∃ ys, length ys = length es ∧ Forall (fun y => 0 <= y) ys ∧
    incr_trace (c_of st) ((fun e => row_of e st) <$> es) (sum_of st) =
    Fin <$> ys ∧
    Forall (fun t => slot_sum t <= slot_cost t) (run es ys st).
Proof.
  induction es as [|e es IH]; intros st Hle Hcov.
  - by exists [].
  - destruct (grow_element_incr e st Hle)
      as (y & Hy0 & Hall & Hincr & Hstep).
    { apply Hcov, list_elem_of_here. }
    set (st1 := grow_slot y e <$> st).
    destruct (IH st1) as (ys & Hlen & Hys & Htr & Hfin).
    { unfold st1. apply Forall_fmap. rewrite Forall_forall in Hle, Hall.
      apply Forall_forall. intros t Ht. apply grow_slot_feasible; auto. }
    { intros e' He'. unfold st1. apply Exists_fmap.
      apply (Hcov e'). by apply list_elem_of_further. }
    exists (y :: ys). split; [simpl; lia|]. split; [by constructor|].
    split; [|done].
    rewrite !fmap_cons. cbn [incr_trace]. rewrite Hstep, Hincr. f_equal.
    fold st1. rewrite <- Htr. unfold st1. rewrite c_of_grow. f_equal.
    apply list_fmap_ext. intros _ e' _. by rewrite row_of_grow.
Qed.

(** [X11]: on zero-filled storage, for a validated instance that has a
    cover and whose costs are integers between 0 and 2^53, the loop
    completes one iteration for each element, every increase of a dual
    variable is a non-negative integer, and the sum of the increases is
    at most the total cost of the cover: it is a lower bound for the cost
    of every cover. *)
Theorem X11_weak_duality inst o :
  verify inst = true → Forall integer_cost (costs inst) → is_cover inst o →
  length (solve_increments zeroed inst) = nr_elements inst ∧
  Forall (fun d => integral d ∧ dle (Fin 0) d = true)
    (solve_increments zeroed inst) ∧
  dle (dsum (solve_increments zeroed inst)) (total_cost inst o) = true.
Proof.
  intros Hv Hi Ho. pose proof (integer_costs_nonneg _ Hi) as Hc.
  pose proof (is_cover_feasible _ _ Ho) as Hf.
  assert (Forall integral (solve_increments zeroed inst)) as Hint.
  { unfold solve_increments. apply incr_trace_integral.
    - by apply cost_vector_integral.
    - apply initial_sum_integral.
    - rewrite coverage_matrix_closed by done. apply coverage_rows_bit01. }
  destruct (incr_trace_slots (seq 0 (nr_elements inst)) (slots_of inst))
    as (ys & Hlen & Hys & Htr & Hfin).
  { by apply slots_of_feasible. }
  { intros e [_ He]%elem_of_seq. apply slots_of_covered; [done|].
    apply Hf. lia. }
  rewrite length_seq in Hlen.
  assert (solve_increments zeroed inst = Fin <$> ys) as Heq.
  { unfold solve_increments.
    rewrite coverage_matrix_closed, c_of_slots_of, sum_of_slots_of by done.
    rewrite (list_fmap_ext (coverage_row zeroed (sets inst))
               (fun e => row_of e (slots_of inst))
               (seq 0 (nr_elements inst)))
      by (intros; by apply row_of_slots_of).
    exact Htr. }
  rewrite Heq in Hint |- *.
  split; [by rewrite length_fmap|]. split.
  { apply Forall_and. split; [done|]. apply Forall_fmap.
    eapply Forall_impl; [exact Hys|].
    intros y Hy. simpl. by apply dle_fin. }
  destruct Ho as [Hvalid Hcov].
  rewrite dsum_fin, total_cost_fin; try done.
  2: { intros i Hi'. rewrite (length_costs inst Hv). by apply Hvalid. }
  apply dle_fin.
  set (es := seq 0 (nr_elements inst)) in *.
  set (set_at := fun i => default [] (sets inst !! i)).
  eapply Qle_trans.
  - apply (load_lower set_at es ys Hys); [unfold es; by rewrite length_seq|].
    intros e [_ He]%elem_of_seq.
    destruct (proj1 (Hcov (Z.of_nat e))) as (i & s & Hi' & Hs & Hin); [lia|].
    exists i. split; [exact Hi'|]. unfold set_at. rewrite Hs. simpl.
    by apply bool_decide_eq_true.
  - unfold qcost. apply Qsum_fmap_le. intros i Hi'.
    destruct (lookup_lt_is_Some_2 (run es ys (slots_of inst)) i) as [t Ht].
    { rewrite length_run, length_slots_of by done. by apply Hvalid. }
    destruct (final_lookup _ _ _ _ Hv Ht) as (d & Hs & Hd & Hcd & Hq).
    unfold set_at. rewrite Hs, Hd. simpl. rewrite Forall_forall in Hfin.
    assert (slot_sum t <= slot_cost t) as Hle
      by (eapply Hfin, list_elem_of_lookup_2, Ht).
    rewrite Hcd in Hle. unfold es. lra.
Qed.

(** ** Costs that are infinite or NaN *)

(** The minimum of line 66 stays at infinity on a row in which every set
    that contains the element has cost plus infinity or NaN: the gap of
    such a set is plus infinity or NaN whatever [sum] holds, and
    [std::min] keeps its first argument against either. *)
Lemma max_possible_incr_unaffordable row : ∀ c sum,
  Forall2 (fun a d => a = Fin 0 ∨ (a = Fin 1 ∧ (d = PInf ∨ d = NaN))) row c →
  max_possible_incr PInf row (zip_with dsub c sum) = PInf.
Proof.
  induction row as [|a row IH]; intros c sum Hrow; [done|].
  apply Forall2_cons_inv_l in Hrow as (d & c' & Ha & Hrow & ->).
  destruct sum as [|s sum]; [done|]. cbn [zip_with max_possible_incr].
  destruct Ha as [->|[-> [-> | ->]]].
  - change (dlt (Fin 0) EPSILON) with true. cbn match. by apply IH.
  - change (dlt (Fin 1) EPSILON) with false. cbn match.
    assert (dmin PInf (ddiv (dsub PInf s) (Fin 1)) = PInf) as ->
      by (by destruct s).
    by apply IH.
  - change (dlt (Fin 1) EPSILON) with false. cbn match.
    assert (dmin PInf (ddiv (dsub NaN s) (Fin 1)) = PInf) as ->
      by (by destruct s).
    by apply IH.
Qed.

Lemma dual_growth_blocked c rows : ∀ sum,
  Exists (fun row => ∀ s, grow_element c s row = None) rows →
  dual_growth c rows sum = None.
Proof.
  induction rows as [|row rows IH]; intros sum Hex.
  - by apply Exists_nil in Hex.
  - cbn [dual_growth]. destruct (grow_element c sum row) as [sum'|] eqn:Hg;
      [|done].
    apply Exists_cons in Hex as [Hz|Hex]; [|by apply IH].
    by rewrite Hz in Hg.
Qed.

(** [X10]: on zero-filled storage, for a validated instance with an
    element [e] such that every set that contains [e] has cost plus
    infinity or NaN, the iteration for [e] takes the early return
    whatever [sum] holds when it is entered, and [solve] reports
    [Infeasible!] and returns the empty sequence.  An element that no set
    contains is one case; an element contained only in sets of infinite
    or NaN cost is reported in the same way. *)
Theorem X10_unaffordable_element inst e :
  verify inst = true → (e < nr_elements inst)%nat →
  (∀ i s d, sets inst !! i = Some s → costs inst !! i = Some d →
            covers s e = true → d = PInf ∨ d = NaN) →
  (∀ sum, grow_element (cost_vector inst) sum
            (coverage_row zeroed (sets inst) e) = None) ∧
  solve zeroed inst = Return ["Infeasible!"%string] [].
Proof.
  intros Hv He Hinf.
  assert (∀ sum, grow_element (cost_vector inst) sum
                   (coverage_row zeroed (sets inst) e) = None) as Hrow.
  { intros sum. unfold grow_element, infinity.
    rewrite max_possible_incr_unaffordable; [done|].
    unfold cost_vector. rewrite <- (length_costs inst Hv), firstn_all.
    apply Forall2_same_length_lookup. split.
    { unfold coverage_row. by rewrite length_imap, length_costs. }
    intros i a d Ha Hd. unfold coverage_row in Ha.
    rewrite list_lookup_imap in Ha.
    destruct (sets inst !! i) as [s|] eqn:Hs; [|done].
    simpl in Ha. injection Ha as <-.
    destruct (covers s e) eqn:Hc; [right|by left].
    split; [done|]. by apply (Hinf i s d). }
  split; [exact Hrow|].
  unfold solve. rewrite Hv, coverage_matrix_closed by done.
  rewrite dual_growth_blocked; [done|].
  apply Exists_fmap, Exists_exists. exists e.
  split; [apply elem_of_seq; lia|]. exact Hrow.
Qed.

(** ** Coverage with integer costs *)

(** [X12]: on zero-filled storage, for a validated feasible instance
    whose costs are integers between 0 and 2^53, [solve] reports no
    infeasibility and the sets it returns cover every element: the union
    of the sets at the returned indices is the set of all elements. *)
Theorem X12_coverage_integer inst :
  verify inst = true → Forall integer_cost (costs inst) → feasible inst →
  ∃ sel, solve zeroed inst = Return [] sel ∧ is_cover inst sel.
Proof.
  intros Hv Hc%integer_costs_nonneg Hf.
  destruct (solve_zeroed inst Hv Hc Hf)
    as (ys & _ & _ & Hsolve & _ & Htight & _).
  set (final := run (seq 0 (nr_elements inst)) ys (slots_of inst)) in *.
  eexists. split; [exact Hsolve|]. split.
  - intros i (_ & cs & ss & Hcs & _)%elem_of_set_cover_from.
    apply lookup_lt_Some in Hcs. unfold c_of in Hcs.
    rewrite length_fmap in Hcs. unfold final in Hcs.
    rewrite length_run, length_slots_of in Hcs by done. lia.
  - intros r. split.
    + intros Hr. assert (Z.to_nat r < nr_elements inst)%nat as Hlt by lia.
      apply Htight, Exists_exists in Hlt as (t & Ht & Hcov & Heq).
      apply list_elem_of_lookup_1 in Ht as [i Hi].
      destruct (final_lookup _ _ _ _ Hv Hi) as (d & Hs & _).
      exists i, (slot_set t). repeat split; [|done|].
      * apply elem_of_set_cover_from. split; [lia|]. rewrite Nat.sub_0_r.
        exists (Fin (slot_cost t)), (Fin (slot_sum t)).
        unfold c_of, sum_of. rewrite !list_lookup_fmap. fold final.
        rewrite Hi. repeat split; try done. by apply tight_exact.
      * apply bool_decide_eq_true in Hcov. by rewrite Z2Nat.id in Hcov by lia.
    + intros (i & s & _ & Hs & Hin). apply verify_spec in Hv as [_ Hv].
      apply (Hv s r); [|done]. eapply list_elem_of_lookup_2, Hs.
Qed.

(** ** The further properties at concrete instances *)

(** [X1] on the instance of [main] and zero-filled storage. *)
Lemma X1_returned_indices_witness :
  solve zeroed main_instance = Return [] [1; 3]%nat ∧
  (∀ i, i ∈ [1; 3]%nat →
        (i < length (sets main_instance))%nat ∧
        ∃ q, costs main_instance !! i = Some (Fin q)) ∧
  (length [1; 3]%nat <= length (sets main_instance))%nat.
Proof.
  assert (solve zeroed main_instance = Return [] [1; 3]%nat) as H
    by (vm_compute; reflexivity).
  split; [exact H|]. exact (X1_returned_indices zeroed main_instance _ _ H).
Defined.


(** [X5] on the instance of [main]. *)
Lemma X5_heap_agree_witness :
  heap_agree main_instance zeroed stale_unread ∧
  solve zeroed main_instance = solve stale_unread main_instance.
Proof.
  assert (heap_agree main_instance zeroed stale_unread) as H.
  { split.
    - intros e i s _ Hs Hc. simpl.
      destruct e as [|e]; [|reflexivity].
      destruct i as [|i]; [|reflexivity].
      simpl in Hs. injection Hs as <-. vm_compute in Hc. discriminate.
    - intros i Hi. simpl in Hi. apply Nat.ltb_lt in Hi. simpl.
      rewrite Hi. reflexivity. }
  split; [exact H|]. exact (X5_heap_agree main_instance _ _ H).
Defined.

(** [X6] on the instance of [main]. *)
Lemma X6_element_order_witness :
  nr_elements swapped_main_instance = nr_elements main_instance ∧
  costs swapped_main_instance = costs main_instance ∧
  Forall2 Permutation (sets swapped_main_instance) (sets main_instance) ∧
  solve zeroed swapped_main_instance = solve zeroed main_instance.
Proof.
  assert (Forall2 Permutation (sets swapped_main_instance)
            (sets main_instance)) as H
    by (repeat constructor).
  split; [reflexivity|]. split; [reflexivity|]. split; [exact H|].
  exact (X6_element_order zeroed swapped_main_instance main_instance
           eq_refl eq_refl H).
Defined.

(** [X7] on an instance with a set of cost 0 that the cover does not
    need. *)
Lemma X7_free_sets_witness :
  verify free_set_instance = true ∧
  Forall integer_cost (costs free_set_instance) ∧
  feasible free_set_instance ∧
  costs free_set_instance !! 1%nat = Some (Fin 0) ∧
  ∃ sel, solve zeroed free_set_instance = Return [] sel ∧ 1%nat ∈ sel.
Proof.
  assert (verify free_set_instance = true) as Hv by reflexivity.
  assert (Forall integer_cost (costs free_set_instance)) as Hc
    by (apply integer_costs_spec; reflexivity).
  assert (feasible free_set_instance) as Hf
    by (apply feasibleb_spec; reflexivity).
  split; [exact Hv|]. split; [exact Hc|]. split; [exact Hf|].
  split; [reflexivity|].
  exact (X7_free_sets free_set_instance 1 Hv Hc Hf eq_refl).
Defined.

(** [X8] on the instance of [main]: element 2 is in set 1 only. *)
Lemma X8_sole_container_witness :
  verify main_instance = true ∧ Forall integer_cost (costs main_instance) ∧
  feasible main_instance ∧ (2 < nr_elements main_instance)%nat ∧
  sets main_instance !! 1%nat = Some [1; 2; 3]%Z ∧
  (∀ j s', sets main_instance !! j = Some s' → covers s' 2 = true →
           j = 1%nat) ∧
  ∃ sel, solve zeroed main_instance = Return [] sel ∧ 1%nat ∈ sel.
Proof.
  assert (verify main_instance = true) as Hv by reflexivity.
  assert (Forall integer_cost (costs main_instance)) as Hc
    by (apply integer_costs_spec; reflexivity).
  assert (feasible main_instance) as Hf
    by (apply feasibleb_spec; reflexivity).
  assert (2 < nr_elements main_instance)%nat as He by (simpl; lia).
  assert (∀ j s', sets main_instance !! j = Some s' → covers s' 2 = true →
                  j = 1%nat) as Hsole.
  { intros j s' Hs Hcov.
    destruct j as [|[|[|[|j]]]]; simpl in Hs; try discriminate;
      try reflexivity; injection Hs as <-; vm_compute in Hcov;
      discriminate. }
  split; [exact Hv|]. split; [exact Hc|]. split; [exact Hf|].
  split; [exact He|]. split; [reflexivity|]. split; [exact Hsole|].
  exact (X8_sole_container main_instance 2 1 _ Hv Hc Hf He eq_refl Hsole).
Defined.

(** [X9] on the instance of [main], at the start of the second
    iteration. *)
Lemma X9_dual_feasible_witness :
  verify main_instance = true ∧ Forall integer_cost (costs main_instance) ∧
  [Fin 2; Fin 0; Fin 0; Fin 2] ∈ solve_trace zeroed main_instance ∧
  vec_le (initial_sum zeroed main_instance) [Fin 2; Fin 0; Fin 0; Fin 2] ∧
  vec_le [Fin 2; Fin 0; Fin 0; Fin 2] (cost_vector main_instance) ∧
  Forall integral [Fin 2; Fin 0; Fin 0; Fin 2].
Proof.
  assert (verify main_instance = true) as Hv by reflexivity.
  assert (Forall integer_cost (costs main_instance)) as Hc
    by (apply integer_costs_spec; reflexivity).
  assert ([Fin 2; Fin 0; Fin 0; Fin 2] ∈ solve_trace zeroed main_instance)
    as Hu.
  { assert (solve_trace zeroed main_instance =
            [[Fin 0; Fin 0; Fin 0; Fin 0]; [Fin 2; Fin 0; Fin 0; Fin 2];
             [Fin 4; Fin 2; Fin 0; Fin 2]; [Fin 4; Fin 2; Fin 0; Fin 2];
             [Fin 4; Fin 2; Fin 0; Fin 2]; [Fin 4; Fin 2; Fin 0; Fin 2]])
      as -> by (vm_compute; reflexivity).
    apply list_elem_of_further, list_elem_of_here. }
  split; [exact Hv|]. split; [exact Hc|]. split; [exact Hu|].
  exact (X9_dual_feasible main_instance _ Hv Hc Hu).
Defined.

(** [X10] on an instance whose only set has an infinite cost. *)
Lemma X10_unaffordable_element_witness :
  verify infinite_cost_instance = true ∧
  (0 < nr_elements infinite_cost_instance)%nat ∧
  (∀ i s d, sets infinite_cost_instance !! i = Some s →
            costs infinite_cost_instance !! i = Some d →
            covers s 0 = true → d = PInf ∨ d = NaN) ∧
  feasible infinite_cost_instance ∧
  (∀ sum, grow_element (cost_vector infinite_cost_instance) sum
            (coverage_row zeroed (sets infinite_cost_instance) 0) = None) ∧
  solve zeroed infinite_cost_instance = Return ["Infeasible!"%string] [].
Proof.
  assert (verify infinite_cost_instance = true) as Hv by reflexivity.
  assert (0 < nr_elements infinite_cost_instance)%nat as He by (simpl; lia).
  assert (∀ i s d, sets infinite_cost_instance !! i = Some s →
                   costs infinite_cost_instance !! i = Some d →
                   covers s 0 = true → d = PInf ∨ d = NaN) as Hinf.
  { intros i s d _ Hd _. destruct i as [|i]; simpl in Hd; [|discriminate].
    injection Hd as <-. by left. }
  split; [exact Hv|]. split; [exact He|]. split; [exact Hinf|].
  split; [apply feasibleb_spec; reflexivity|].
  exact (X10_unaffordable_element infinite_cost_instance 0 Hv He Hinf).
Defined.

(** [X11] on the instance of [main], against the cover made of the sets
    1 and 3. *)
Lemma X11_weak_duality_witness :
  verify main_instance = true ∧ Forall integer_cost (costs main_instance) ∧
  is_cover main_instance [1; 3]%nat ∧
  length (solve_increments zeroed main_instance) =
    nr_elements main_instance ∧
  Forall (fun d => integral d ∧ dle (Fin 0) d = true)
    (solve_increments zeroed main_instance) ∧
  dle (dsum (solve_increments zeroed main_instance))
      (total_cost main_instance [1; 3]%nat) = true.
Proof.
  assert (verify main_instance = true) as Hv by reflexivity.
  assert (Forall integer_cost (costs main_instance)) as Hc
    by (apply integer_costs_spec; reflexivity).
  assert (is_cover main_instance [1; 3]%nat) as Ho
    by (apply is_coverb_spec; reflexivity).
  split; [exact Hv|]. split; [exact Hc|]. split; [exact Ho|].
  exact (X11_weak_duality main_instance [1; 3]%nat Hv Hc Ho).
Defined.

(** [X12] on the instance of [main]. *)
Lemma X12_coverage_integer_witness :
  verify main_instance = true ∧ Forall integer_cost (costs main_instance) ∧
  feasible main_instance ∧
  ∃ sel, solve zeroed main_instance = Return [] sel ∧
         is_cover main_instance sel.
Proof.
  assert (verify main_instance = true) as Hv by reflexivity.
  assert (Forall integer_cost (costs main_instance)) as Hc
    by (apply integer_costs_spec; reflexivity).
  assert (feasible main_instance) as Hf
    by (apply feasibleb_spec; reflexivity).
  split; [exact Hv|]. split; [exact Hc|]. split; [exact Hf|].
  exact (X12_coverage_integer main_instance Hv Hc Hf).
Defined.

